(** * Focus Force: the to-do list component of [FF/FocusForce/App.tsx]

    The component keeps five [useState] cells and mutates JavaScript arrays
    and objects that live on the heap.  The embedding below keeps that heap:
    arrays are lists of object references, to-do objects are records, and
    every handler is a computation in a small state-and-exception monad.
    The handlers copy the array with a spread ([[...toDoList]]) but write to
    the objects in place, so the sharing between the old and the new array is
    part of the model. *)

From Stdlib Require Import ZArith Lia.
From stdpp Require Import base tactics option list strings sorting.

Local Open Scope Z_scope.

(** ** Heap values *)

(** A to-do object [{ text, completed }] (line 39). *)
Record ToDo := mkToDo { text : string; completed : bool }.

Global Instance ToDo_eq_dec : EqDecision ToDo.
Proof. solve_decision. Defined.

(** References to heap objects and heap arrays are allocation indices. *)
Abbreviation obj_ref := nat (only parsing).
Abbreviation arr_ref := nat (only parsing).

Record Heap := mkHeap {
  objects : list ToDo;
  arrays : list (list obj_ref)
}.

(** ** The evaluation monad *)

(** [TypeError] is the exception JavaScript raises on a property access
    through [undefined].  [DanglingRef] marks a reference that the heap does
    not hold; no JavaScript program can build one, and [dispatch_no_dangling]
    below shows that the component never meets one. *)
Inductive Error := TypeError | DanglingRef.

Inductive Result (A : Type) :=
| Ok (a : A)
| Throw (e : Error).
Arguments Ok {A} a.
Arguments Throw {A} e.

Definition JS (A : Type) : Type := Heap → Result (A * Heap).

Global Instance JS_ret : MRet JS := λ A a h, Ok (a, h).
Global Instance JS_bind : MBind JS := λ A B f m h,
  match m h with
  | Ok (a, h') => f a h'
  | Throw e => Throw e
  end.
Definition throw {A} (e : Error) : JS A := λ _, Throw e.

(** ** Heap primitives *)

Definition readArr (a : arr_ref) : JS (list obj_ref) := λ h,
  match arrays h !! a with
  | Some l => Ok (l, h)
  | None => Throw DanglingRef
  end.

Definition newArr (l : list obj_ref) : JS arr_ref := λ h,
  Ok (length (arrays h), mkHeap (objects h) (arrays h ++ [l])).

Definition writeArr (a : arr_ref) (l : list obj_ref) : JS unit := λ h,
  match arrays h !! a with
  | Some _ => Ok ((), mkHeap (objects h) (<[a:=l]> (arrays h)))
  | None => Throw DanglingRef
  end.

Definition readObj (o : obj_ref) : JS ToDo := λ h,
  match objects h !! o with
  | Some t => Ok (t, h)
  | None => Throw DanglingRef
  end.

Definition newObj (t : ToDo) : JS obj_ref := λ h,
  Ok (length (objects h), mkHeap (objects h ++ [t]) (arrays h)).

Definition writeObj (o : obj_ref) (t : ToDo) : JS unit := λ h,
  match objects h !! o with
  | Some _ => Ok ((), mkHeap (<[o:=t]> (objects h)) (arrays h))
  | None => Throw DanglingRef
  end.

(** ** The JavaScript operations the component uses *)

(** [[...a]]: a fresh array with the same element references. *)
Definition spread (a : arr_ref) : JS arr_ref :=
  l ← readArr a; newArr l.

(** [a[index]]: the element, or [undefined] ([None]) when [index] is not a
    position of the array. *)
Definition nthZ {A} (l : list A) (index : Z) : option A :=
  if decide (0 ≤ index) then l !! Z.to_nat index else None.

Definition getIndex (a : arr_ref) (index : Z) : JS (option obj_ref) :=
  l ← readArr a; mret (nthZ l index).

(** [v.completed], [v.text] and the assignments to them; on [undefined] the
    property access throws. *)
Definition getCompleted (v : option obj_ref) : JS bool :=
  match v with
  | Some o => t ← readObj o; mret (completed t)
  | None => throw TypeError
  end.

Definition setCompleted (v : option obj_ref) (b : bool) : JS unit :=
  match v with
  | Some o => t ← readObj o; writeObj o (mkToDo (text t) b)
  | None => throw TypeError
  end.

Definition setText (v : option obj_ref) (s : string) : JS unit :=
  match v with
  | Some o => t ← readObj o; writeObj o (mkToDo s (completed t))
  | None => throw TypeError
  end.

(** [Array.prototype.splice(start, deleteCount)] with no inserted items:
    a negative [start] counts from the end, and both arguments are clamped
    to the array. *)
Definition spliceRange (len start deleteCount : Z) : Z * Z :=
  let actualStart :=
    if decide (start < 0) then Z.max (len + start) 0 else Z.min start len in
  let actualDeleteCount := Z.min (Z.max deleteCount 0) (len - actualStart) in
  (actualStart, actualDeleteCount).

Definition spliceList {A} (l : list A) (start deleteCount : Z) : list A :=
  let '(s, d) := spliceRange (Z.of_nat (length l)) start deleteCount in
  take (Z.to_nat s) l ++ drop (Z.to_nat (s + d)) l.

Definition splice (a : arr_ref) (start deleteCount : Z) : JS unit :=
  l ← readArr a; writeArr a (spliceList l start deleteCount).

(** [Array.prototype.sort(comparefn)].  The language (ECMAScript 2019 and
    later) fixes the result, not the algorithm: the sort is stable, and [x]
    goes after [y] only when [comparefn(x, y) > 0].  Insertion from the right
    is the simplest sort with that contract. *)
Fixpoint insertBy {A} (comparefn : A → A → Z) (x : A) (l : list A) : list A :=
  match l with
  | [] => [x]
  | y :: l' =>
      if decide (0 < comparefn x y) then y :: insertBy comparefn x l'
      else x :: l
  end.

Definition stableSort {A} (comparefn : A → A → Z) (l : list A) : list A :=
  foldr (insertBy comparefn) [] l.

(** The contract itself: [l'] is a stable ascending arrangement of [l] when
    it ascends and every class of elements that compare equal keeps the
    order it has in [l].  [stableSort_unique] shows that a consistent
    [comparefn] leaves exactly one such [l']. *)
Definition stablySorted {A} (comparefn : A → A → Z) (l l' : list A) : Prop :=
  StronglySorted (λ a b, comparefn a b ≤ 0) l' ∧
  ∀ x, filter (λ y, comparefn x y = 0) l' = filter (λ y, comparefn x y = 0) l.

(** The objects behind a list of references, each paired with its
    reference. *)
Definition derefAll (objs : list ToDo) (l : list obj_ref) : option (list (obj_ref * ToDo)) :=
  mapM (λ o, t ← objs !! o; Some (o, t)) l.

Definition readPairs (h : Heap) (a : arr_ref) : option (list (obj_ref * ToDo)) :=
  arrays h !! a ≫= derefAll (objects h).

Definition sort (a : arr_ref) (comparefn : ToDo → ToDo → Z) : JS unit := λ h,
  match readPairs h a with
  | Some ps =>
      writeArr a (fst <$> stableSort (λ p q, comparefn p.2 q.2) ps) h
  | None => Throw DanglingRef
  end.

(** [Array.prototype.filter(pred)]: a fresh array with the elements that
    satisfy [pred], in order. *)
Definition filterArr (a : arr_ref) (pred : ToDo → bool) : JS arr_ref := λ h,
  match readPairs h a with
  | Some ps => newArr (fst <$> filter (λ p, pred p.2 = true) ps) h
  | None => Throw DanglingRef
  end.

(** ** Component state (lines 26-30) *)

Record State := mkState {
  toDoList : arr_ref;
  inputValue : string;
  editIndex : option Z;
  showCompleted : bool;
  sortBy : option string
}.

Definition setToDoList (v : arr_ref) (st : State) : State :=
  mkState v (inputValue st) (editIndex st) (showCompleted st) (sortBy st).
Definition setInputValue (v : string) (st : State) : State :=
  mkState (toDoList st) v (editIndex st) (showCompleted st) (sortBy st).
Definition setEditIndex (v : option Z) (st : State) : State :=
  mkState (toDoList st) (inputValue st) v (showCompleted st) (sortBy st).
Definition setShowCompleted (v : bool) (st : State) : State :=
  mkState (toDoList st) (inputValue st) (editIndex st) v (sortBy st).
Definition setSortBy (v : option string) (st : State) : State :=
  mkState (toDoList st) (inputValue st) (editIndex st) (showCompleted st) v.

(** The five [useState] cells start as the empty array, the empty string,
    [null], [true] and [null]; the first render allocates the empty array. *)
Definition initialHeap : Heap := mkHeap [] [[]].
Definition initialState : State := mkState 0%nat EmptyString None true None.

(** A string is truthy unless it is empty. *)
Definition truthy (s : string) : bool := negb (String.eqb s EmptyString).

(** ** Handlers (lines 37-93) *)

Definition handleAddToDo (st : State) : JS State :=
  if truthy (inputValue st) then
    l ← readArr (toDoList st);
    o ← newObj (mkToDo (inputValue st) false);
    a ← newArr (l ++ [o]);
    mret (setInputValue EmptyString (setToDoList a st))
  else mret st.

Definition handleToggleCompleted (index : Z) (st : State) : JS State :=
  updatedToDoList ← spread (toDoList st);
  target ← getIndex updatedToDoList index;
  source ← getIndex updatedToDoList index;
  c ← getCompleted source;
  setCompleted target (negb c);;
  mret (setToDoList updatedToDoList st).

Definition handleDeleteToDo (index : Z) (st : State) : JS State :=
  updatedToDoList ← spread (toDoList st);
  splice updatedToDoList index 1;;
  mret (setToDoList updatedToDoList st).

Definition handleEditToDo (index : Z) (newText : string) (st : State) : JS State :=
  updatedToDoList ← spread (toDoList st);
  v ← getIndex updatedToDoList index;
  setText v newText;;
  mret (setEditIndex None (setToDoList updatedToDoList st)).

Definition handleToggleShowCompleted (st : State) : JS State :=
  mret (setShowCompleted (negb (showCompleted st)) st).

Definition handleSortByName (st : State) : JS State :=
  mret (setSortBy (Some "name"%string) st).

(** ** Derived lists (lines 101-114)

    [localeCompare] is the host's collation, a parameter of the model. *)

Section Render.
Variable localeCompare : string → string → Z.

Definition byText (a b : ToDo) : Z := localeCompare (text a) (text b).

Definition sortedToDoList (st : State) : JS arr_ref :=
  sorted ← spread (toDoList st);
  (if decide (sortBy st = Some "name"%string) then sort sorted byText
   else mret ());;
  mret sorted.

Definition shown (st : State) (toDo : ToDo) : bool :=
  showCompleted st || negb (completed toDo).

Definition filteredToDoList (st : State) : JS arr_ref :=
  sorted ← sortedToDoList st;
  filterArr sorted (shown st).

(** The rows on screen: the objects of [filteredToDoList], read after the
    render. *)
Definition displayedRows (st : State) (h : Heap) : option (list (obj_ref * ToDo)) :=
  match filteredToDoList st h with
  | Ok (a, h') => readPairs h' a
  | Throw _ => None
  end.

Definition displayed (st : State) (h : Heap) : option (list ToDo) :=
  (λ ps : list (obj_ref * ToDo), ps.*2) <$> displayedRows st h.
End Render.

(** The to-do items in storage order. *)
Definition items (h : Heap) (st : State) : option (list ToDo) :=
  (λ ps : list (obj_ref * ToDo), ps.*2) <$> readPairs h (toDoList st).

(** ** User events (lines 116-194) *)

Inductive Event :=
| ChangeInput (text : string)            (* line 124 *)
| PressAdd                               (* line 126 *)
| ChangeEdit (index : Z) (text : string) (* line 139 *)
| PressUpdate                            (* line 143 *)
| PressCheckBox (index : Z)              (* line 152 *)
| LongPress (index : Z)                  (* line 161 *)
| PressDelete (index : Z)                (* line 167 *)
| PressFilter                            (* line 183 *)
| PressSort.                             (* line 189 *)

Definition dispatch (e : Event) (st : State) : JS State :=
  match e with
  | ChangeInput text => mret (setInputValue text st)
  | PressAdd => handleAddToDo st
  | ChangeEdit index text => handleEditToDo index text st
  | PressUpdate => mret (setEditIndex None st)
  | PressCheckBox index => handleToggleCompleted index st
  | LongPress index => mret (setEditIndex (Some index) st)
  | PressDelete index => handleDeleteToDo index st
  | PressFilter => handleToggleShowCompleted st
  | PressSort => handleSortByName st
  end.

(** Running a sequence of events; an exception stops the run. *)
Fixpoint run (es : list Event) (st : State) : JS State :=
  match es with
  | [] => mret st
  | e :: es' => st' ← dispatch e st; run es' st'
  end.

(** A sample collation for the examples: code-unit order. *)
Definition codeUnitCompare (a b : string) : Z :=
  match String.compare a b with
  | Lt => -1
  | Eq => 0
  | Gt => 1
  end.

(** ** Representation: what the heap stores for the component *)

(** [stores h st l]: in heap [h] the array [toDoList st] holds pairwise
    distinct objects whose contents are, in order, [l]. *)
Definition stores (h : Heap) (st : State) (l : list ToDo) : Prop :=
  ∃ ps, readPairs h (toDoList st) = Some ps ∧ NoDup ps.*1 ∧ ps.*2 = l.

(** The pure counterparts of the derived lists, on (reference, object)
    pairs. *)
Section View.
Variable localeCompare : string → string → Z.

Definition sortedPairs (st : State) (ps : list (obj_ref * ToDo)) : list (obj_ref * ToDo) :=
  if decide (sortBy st = Some "name"%string)
  then stableSort (λ p q, byText localeCompare p.2 q.2) ps
  else ps.

Definition filteredPairs (st : State) (ps : list (obj_ref * ToDo)) : list (obj_ref * ToDo) :=
  filter (λ p, shown st p.2 = true) (sortedPairs st ps).
End View.

(** Which events the rendered screen offers, for [n] displayed rows: a row
    in edit mode has the text field and the Update button, every other row
    the check box, the long press and the delete button. *)
Definition offered (n : nat) (st : State) (e : Event) : Prop :=
  match e with
  | ChangeInput _ | PressAdd | PressFilter | PressSort => True
  | ChangeEdit index _ => 0 ≤ index < Z.of_nat n ∧ editIndex st = Some index
  | PressUpdate => ∃ index, 0 ≤ index < Z.of_nat n ∧ editIndex st = Some index
  | PressCheckBox index | LongPress index | PressDelete index =>
      0 ≤ index < Z.of_nat n ∧ editIndex st ≠ Some index
  end.

(** A run in which every event is one the screen offers when it occurs. *)
Fixpoint offeredRun (localeCompare : string → string → Z)
    (es : list Event) (st : State) (h : Heap) : Prop :=
  match es with
  | [] => True
  | e :: es' =>
      (∃ d, displayed localeCompare st h = Some d ∧ offered (length d) st e) ∧
      ∀ st' h', dispatch e st h = Ok (st', h') → offeredRun localeCompare es' st' h'
  end.

(** The events whose index argument, if any, is a position of a list of
    length [n]. *)
Definition inRange (n : nat) (e : Event) : Prop :=
  match e with
  | ChangeEdit index _ | PressCheckBox index => 0 ≤ index < Z.of_nat n
  | _ => True
  end.

Global Instance inRange_dec n e : Decision (inRange n e).
Proof. destruct e; simpl; apply _. Defined.

(** ** Sample runs

    The scenarios of the specification, as event sequences from the initial
    screen, and the state the second one ends in. *)

Definition milkBobHidden : list Event :=
  [ChangeInput "Buy milk"; PressAdd; ChangeInput "Call Bob"; PressAdd;
   PressCheckBox 0; PressFilter].

Definition zebraApple : list Event :=
  [ChangeInput "Zebra"; PressAdd; ChangeInput "Apple"; PressAdd].

Definition zebraAppleHeap : Heap :=
  mkHeap [mkToDo "Zebra" false; mkToDo "Apple" false] [[]; [0]; [0; 1]]%nat.

Definition zebraAppleState : State := mkState 2%nat EmptyString None true None.

Definition milkBobHeap : Heap :=
  mkHeap [mkToDo "Buy milk" true; mkToDo "Call Bob" false]
         [[]; [0]; [0; 1]; [0; 1]]%nat.

Definition milkBobState : State := mkState 3%nat EmptyString None false None.

(** * Properties *)

(** ** The monad *)

Lemma bind_Ok {A B} (m : JS A) (f : A → JS B) h a h' :
  m h = Ok (a, h') → (m ≫= f) h = f a h'.
Proof. unfold mbind, JS_bind. by intros ->. Qed.

Lemma bind_Throw {A B} (m : JS A) (f : A → JS B) h e :
  m h = Throw e → (m ≫= f) h = Throw e.
Proof. unfold mbind, JS_bind. by intros ->. Qed.

Lemma bind_inv {A B} (m : JS A) (f : A → JS B) h b h'' :
  (m ≫= f) h = Ok (b, h'') → ∃ a h', m h = Ok (a, h') ∧ f a h' = Ok (b, h'').
Proof.
  unfold mbind, JS_bind. destruct (m h) as [[a h']|e]; [eauto | done].
Qed.

(** ** Reading through references *)

Lemma derefAll_Some objs refs ps :
  derefAll objs refs = Some ps ↔
  ps.*1 = refs ∧ Forall (λ p, objs !! p.1 = Some p.2) ps.
Proof.
  unfold derefAll. revert ps. induction refs as [|o refs IH]; intros ps; simpl.
  - split.
    + intros [= <-]. by split.
    + intros [Hnil _]. by apply fmap_nil_inv in Hnil as ->.
  - destruct (objs !! o) as [t|] eqn:Ho; simpl.
    + destruct (mapM _ refs) as [ps'|] eqn:Hrefs; simpl.
      * destruct (IH ps') as [[<- Hall] _]; [done|]. split.
        -- intros [= <-]. split; [done|]. by constructor.
        -- destruct ps as [|[o' t'] ps]; intros [Hfst Hps]; simplify_eq/=.
           apply Forall_cons in Hps as [Ho' Hps]. simpl in Ho'.
           assert (Some ps' = Some ps) as [= ->] by (by apply IH).
           rewrite Ho in Ho'. by simplify_eq.
      * split; [done|].
        destruct ps as [|[o' t'] ps]; intros [Hfst Hps]; simplify_eq/=.
        apply Forall_cons in Hps as [_ Hps].
        assert (None = Some ps) as [=]. by apply IH.
    + split; [done|].
      destruct ps as [|[o' t'] ps]; intros [Hfst Hps]; simplify_eq/=.
      apply Forall_cons in Hps as [Ho' _]. simpl in Ho'. congruence.
Qed.

Lemma readPairs_Some h a ps :
  readPairs h a = Some ps ↔
  arrays h !! a = Some ps.*1 ∧ Forall (λ p, objects h !! p.1 = Some p.2) ps.
Proof.
  unfold readPairs. split.
  - intros H. destruct (arrays h !! a) as [refs|]; [|done]. simpl in H.
    apply derefAll_Some in H as [<- ?]. done.
  - intros [-> H]. simpl. by apply derefAll_Some.
Qed.

Lemma stores_items h st l : stores h st l → items h st = Some l.
Proof. intros (ps & Hps & _ & <-). unfold items. by rewrite Hps. Qed.

Lemma stores_functional h st l1 l2 : stores h st l1 → stores h st l2 → l1 = l2.
Proof. intros H1%stores_items H2%stores_items. congruence. Qed.

(** ** What each handler computes *)

Ltac js_unfold :=
  unfold spread, getIndex, getCompleted, setCompleted, setText, splice,
    readArr, newArr, writeArr, readObj, newObj, writeObj, throw,
    mbind, JS_bind, mret, JS_ret; cbn.

Ltac st_simpl :=
  cbn [toDoList inputValue editIndex showCompleted sortBy setToDoList
       setInputValue setEditIndex setShowCompleted setSortBy objects arrays
       fst snd] in *.

Lemma lookup_snoc_new {A} (l : list A) x : (l ++ [x]) !! length l = Some x.
Proof. by apply list_lookup_middle. Qed.

Lemma insert_snoc_new {A} (l : list A) x y : <[length l:=y]> (l ++ [x]) = l ++ [y].
Proof.
  replace (length l) with (length l + 0)%nat by lia. by rewrite insert_app_r.
Qed.

Lemma truthy_nonempty s : s ≠ EmptyString → truthy s = true.
Proof. intros Hs. unfold truthy. by apply negb_true_iff, String.eqb_neq. Qed.

Lemma nthZ_Some {A} (l : list A) index x :
  nthZ l index = Some x ↔ 0 ≤ index ∧ l !! Z.to_nat index = Some x.
Proof.
  unfold nthZ. case_decide; [by split; [|intros [_ ?]] |].
  by split; [|intros [? _]].
Qed.

Lemma nthZ_None {A} (l : list A) index :
  nthZ l index = None ↔ ¬ (0 ≤ index < Z.of_nat (length l)).
Proof.
  unfold nthZ. case_decide; [|split; [lia|done]].
  rewrite lookup_ge_None. lia.
Qed.

Lemma nthZ_of_nat {A} (l : list A) (i : nat) : nthZ l (Z.of_nat i) = l !! i.
Proof. unfold nthZ. rewrite decide_True by lia. by rewrite Nat2Z.id. Qed.

Lemma spread_eq h a refs :
  arrays h !! a = Some refs →
  spread a h = Ok (length (arrays h), mkHeap (objects h) (arrays h ++ [refs])).
Proof. intros Ha. js_unfold. by rewrite Ha. Qed.

Lemma getIndex_eq h a refs index :
  arrays h !! a = Some refs → getIndex a index h = Ok (nthZ refs index, h).
Proof. intros Ha. js_unfold. by rewrite Ha. Qed.

Lemma getCompleted_eq h o t :
  objects h !! o = Some t → getCompleted (Some o) h = Ok (completed t, h).
Proof. intros Ho. js_unfold. by rewrite Ho. Qed.

Lemma setCompleted_eq h o t b :
  objects h !! o = Some t →
  setCompleted (Some o) b h =
    Ok ((), mkHeap (<[o:=mkToDo (text t) b]> (objects h)) (arrays h)).
Proof. intros Ho. js_unfold. by rewrite Ho; cbn; rewrite Ho. Qed.

Lemma setText_eq h o t s :
  objects h !! o = Some t →
  setText (Some o) s h =
    Ok ((), mkHeap (<[o:=mkToDo s (completed t)]> (objects h)) (arrays h)).
Proof. intros Ho. js_unfold. by rewrite Ho; cbn; rewrite Ho. Qed.

Lemma splice_eq h a refs start deleteCount :
  arrays h !! a = Some refs →
  splice a start deleteCount h =
    Ok ((), mkHeap (objects h) (<[a:=spliceList refs start deleteCount]> (arrays h))).
Proof. intros Ha. js_unfold. by rewrite Ha; cbn; rewrite Ha. Qed.

Lemma handleAddToDo_empty st h :
  inputValue st = EmptyString → handleAddToDo st h = Ok (st, h).
Proof. unfold handleAddToDo. by intros ->. Qed.

Lemma handleAddToDo_nonempty st h refs :
  inputValue st ≠ EmptyString →
  arrays h !! toDoList st = Some refs →
  handleAddToDo st h =
    Ok (setInputValue EmptyString (setToDoList (length (arrays h)) st),
        mkHeap (objects h ++ [mkToDo (inputValue st) false])
               (arrays h ++ [refs ++ [length (objects h)]])).
Proof.
  intros Hs Ha. unfold handleAddToDo. rewrite truthy_nonempty by done.
  js_unfold. by rewrite Ha.
Qed.

Lemma handleToggleCompleted_eq st h refs index :
  arrays h !! toDoList st = Some refs →
  handleToggleCompleted index st h =
    match nthZ refs index with
    | None => Throw TypeError
    | Some o =>
        match objects h !! o with
        | None => Throw DanglingRef
        | Some t =>
            Ok (setToDoList (length (arrays h)) st,
                mkHeap (<[o:=mkToDo (text t) (negb (completed t))]> (objects h))
                       (arrays h ++ [refs]))
        end
    end.
Proof.
  intros Ha. unfold handleToggleCompleted.
  rewrite (bind_Ok _ _ _ _ _ (spread_eq _ _ _ Ha)).
  set (h1 := mkHeap _ _).
  assert (arrays h1 !! length (arrays h) = Some refs) as Ha1
    by apply lookup_snoc_new.
  rewrite !(bind_Ok _ _ _ _ _ (getIndex_eq _ _ _ index Ha1)).
  destruct (nthZ refs index) as [o|]; [|done].
  destruct (objects h !! o) as [t|] eqn:Ho.
  - rewrite (bind_Ok _ _ _ _ _ (getCompleted_eq h1 _ _ Ho)).
    by rewrite (bind_Ok _ _ _ _ _ (setCompleted_eq h1 _ _ _ Ho)).
  - js_unfold. by rewrite Ho.
Qed.

Lemma handleEditToDo_eq st h refs index newText :
  arrays h !! toDoList st = Some refs →
  handleEditToDo index newText st h =
    match nthZ refs index with
    | None => Throw TypeError
    | Some o =>
        match objects h !! o with
        | None => Throw DanglingRef
        | Some t =>
            Ok (setEditIndex None (setToDoList (length (arrays h)) st),
                mkHeap (<[o:=mkToDo newText (completed t)]> (objects h))
                       (arrays h ++ [refs]))
        end
    end.
Proof.
  intros Ha. unfold handleEditToDo.
  rewrite (bind_Ok _ _ _ _ _ (spread_eq _ _ _ Ha)).
  set (h1 := mkHeap _ _).
  assert (arrays h1 !! length (arrays h) = Some refs) as Ha1
    by apply lookup_snoc_new.
  rewrite (bind_Ok _ _ _ _ _ (getIndex_eq _ _ _ index Ha1)).
  destruct (nthZ refs index) as [o|]; [|done].
  destruct (objects h !! o) as [t|] eqn:Ho.
  - by rewrite (bind_Ok _ _ _ _ _ (setText_eq h1 _ _ _ Ho)).
  - js_unfold. by rewrite Ho.
Qed.

Lemma handleDeleteToDo_eq st h refs index :
  arrays h !! toDoList st = Some refs →
  handleDeleteToDo index st h =
    Ok (setToDoList (length (arrays h)) st,
        mkHeap (objects h) (arrays h ++ [spliceList refs index 1])).
Proof.
  intros Ha. unfold handleDeleteToDo.
  rewrite (bind_Ok _ _ _ _ _ (spread_eq _ _ _ Ha)).
  set (h1 := mkHeap _ _).
  assert (arrays h1 !! length (arrays h) = Some refs) as Ha1
    by apply lookup_snoc_new.
  rewrite (bind_Ok _ _ _ _ _ (splice_eq _ _ _ index 1 Ha1)).
  unfold h1; cbn. by rewrite insert_snoc_new.
Qed.

(** ** The sort *)

Section Sort.
Context {A : Type} (comparefn : A → A → Z).

Lemma insertBy_Permutation x l : insertBy comparefn x l ≡ₚ x :: l.
Proof.
  induction l as [|y l IH]; simpl; [done|].
  case_decide; [|done]. rewrite IH. apply Permutation_swap.
Qed.

Lemma stableSort_Permutation l : stableSort comparefn l ≡ₚ l.
Proof.
  induction l as [|x l IH]; simpl; [done|].
  by rewrite insertBy_Permutation, IH.
Qed.

Lemma stableSort_length l : length (stableSort comparefn l) = length l.
Proof. by rewrite stableSort_Permutation. Qed.

(** An element is inserted in front of everything it does not compare
    greater than: insertion never overtakes such an element. *)
Lemma insertBy_filter (P : A → Prop) `{∀ x, Decision (P x)} x l :
  (∀ y, P x → P y → ¬ 0 < comparefn x y) →
  filter P (insertBy comparefn x l) = filter P (x :: l).
Proof.
  intros Hle. induction l as [|y l IH]; simpl; [done|].
  case_decide as Hxy; [|done].
  rewrite filter_cons, IH, !filter_cons.
  destruct (decide (P y)) as [Hy|Hy]; [|done].
  destruct (decide (P x)) as [Hx|Hx]; [|done].
  by destruct (Hle y Hx Hy).
Qed.

Lemma stableSort_filter (P : A → Prop) `{∀ x, Decision (P x)} l :
  (∀ x y, P x → P y → ¬ 0 < comparefn x y) →
  filter P (stableSort comparefn l) = filter P l.
Proof.
  intros Hle. induction l as [|x l IH]; simpl; [done|].
  rewrite insertBy_filter by eauto. by rewrite !filter_cons, IH.
Qed.

(** With a comparison that orders any two elements and is transitive, the
    result ascends. *)
Section Ascending.
Hypothesis comparefn_total : ∀ x y, 0 < comparefn x y → comparefn y x ≤ 0.
Hypothesis comparefn_trans :
  ∀ x y z, comparefn x y ≤ 0 → comparefn y z ≤ 0 → comparefn x z ≤ 0.

Lemma insertBy_sorted x l :
  StronglySorted (λ a b, comparefn a b ≤ 0) l →
  StronglySorted (λ a b, comparefn a b ≤ 0) (insertBy comparefn x l).
Proof.
  induction 1 as [|y l Hl IH Hy]; simpl.
  - repeat constructor.
  - case_decide as Hxy.
    + constructor; [done|].
      rewrite insertBy_Permutation. constructor; [|done].
      by apply comparefn_total.
    + constructor; [by constructor|].
      constructor; [lia|].
      eapply Forall_impl; [exact Hy|]. intros z Hz.
      apply comparefn_trans with y; [lia|done].
Qed.

Lemma stableSort_sorted l :
  StronglySorted (λ a b, comparefn a b ≤ 0) (stableSort comparefn l).
Proof.
  induction l as [|x l IH]; simpl; [constructor|].
  by apply insertBy_sorted.
Qed.
End Ascending.
End Sort.

Lemma insertBy_fmap {A B} (f : A → B) (comparefn : B → B → Z) x l :
  f <$> insertBy (λ a b, comparefn (f a) (f b)) x l
  = insertBy comparefn (f x) (f <$> l).
Proof.
  induction l as [|y l IH]; csimpl; [done|].
  case_decide; csimpl; by rewrite ?IH.
Qed.

Lemma stableSort_fmap {A B} (f : A → B) (comparefn : B → B → Z) l :
  f <$> stableSort (λ a b, comparefn (f a) (f b)) l
  = stableSort comparefn (f <$> l).
Proof.
  induction l as [|x l IH]; csimpl; [done|].
  by rewrite insertBy_fmap, IH.
Qed.

(** For a consistent comparison the contract has one solution, so the
    choice of insertion sort above loses nothing. *)
Section SortContract.
Context {A : Type} (comparefn : A → A → Z).
Hypothesis comparefn_opp :
  ∀ x y, Z.sgn (comparefn y x) = - Z.sgn (comparefn x y).
Hypothesis comparefn_trans :
  ∀ x y z, comparefn x y ≤ 0 → comparefn y z ≤ 0 → comparefn x z ≤ 0.

Lemma comparefn_refl x : comparefn x x = 0.
Proof. pose proof (comparefn_opp x x). destruct (comparefn x x); simpl in *; lia. Qed.

Lemma comparefn_sym x y : comparefn x y = 0 → comparefn y x = 0.
Proof.
  pose proof (comparefn_opp x y). intros Hxy. rewrite Hxy in *.
  destruct (comparefn y x); simpl in *; lia.
Qed.

Lemma comparefn_total x y : 0 < comparefn x y → comparefn y x ≤ 0.
Proof.
  pose proof (comparefn_opp x y).
  destruct (comparefn x y), (comparefn y x); simpl in *; lia.
Qed.

Lemma comparefn_antisym x y :
  comparefn x y ≤ 0 → comparefn y x ≤ 0 → comparefn x y = 0.
Proof.
  pose proof (comparefn_opp x y).
  destruct (comparefn x y), (comparefn y x); simpl in *; lia.
Qed.

Lemma stableSort_stablySorted l : stablySorted comparefn l (stableSort comparefn l).
Proof.
  split.
  - apply stableSort_sorted; [apply comparefn_total | apply comparefn_trans].
  - intros x. apply stableSort_filter. intros a b Ha Hb.
    apply comparefn_sym in Ha.
    pose proof (comparefn_trans a x b). lia.
Qed.

Lemma stablySorted_head_le a l b k :
  StronglySorted (λ a b, comparefn a b ≤ 0) (b :: k) →
  filter (λ y, comparefn a y = 0) (a :: l)
  = filter (λ y, comparefn a y = 0) (b :: k) →
  comparefn b a ≤ 0.
Proof.
  intros [Hb _]%StronglySorted_cons Hf.
  assert (a ∈ b :: k) as [->|Ha]%elem_of_cons.
  { eapply list_elem_of_filter. rewrite <-Hf, filter_cons_True by apply comparefn_refl.
    apply elem_of_cons. by left. }
  - by rewrite comparefn_refl.
  - rewrite Forall_forall in Hb. by apply Hb.
Qed.

Lemma stablySorted_unique_aux l1 l2 :
  StronglySorted (λ a b, comparefn a b ≤ 0) l1 →
  StronglySorted (λ a b, comparefn a b ≤ 0) l2 →
  (∀ x, filter (λ y, comparefn x y = 0) l1 = filter (λ y, comparefn x y = 0) l2) →
  l1 = l2.
Proof.
  intros H1. revert l2.
  induction H1 as [|a l1 Hs1 IH Ha]; intros [|b l2] H2 Hf; [done| | |].
  - specialize (Hf b). by rewrite filter_cons_True in Hf by apply comparefn_refl.
  - specialize (Hf a). by rewrite filter_cons_True in Hf by apply comparefn_refl.
  - assert (comparefn a b = 0) as Hab.
    { apply comparefn_antisym.
      - eapply (stablySorted_head_le b l2 a l1); [by constructor|].
        symmetry. apply Hf.
      - eapply stablySorted_head_le; [done | apply Hf]. }
    pose proof (Hf a) as Hfa.
    rewrite !filter_cons_True in Hfa by (done || apply comparefn_refl).
    injection Hfa as <- _. f_equal.
    apply IH; [by apply StronglySorted_cons in H2 as [_ ?]|].
    intros x. specialize (Hf x). rewrite !filter_cons in Hf.
    case_decide; by simplify_eq.
Qed.

(** Every list that meets the contract is the one [stableSort] returns. *)
Lemma stableSort_unique l l' :
  stablySorted comparefn l l' → l' = stableSort comparefn l.
Proof.
  intros [Hs Hf]. destruct (stableSort_stablySorted l) as [Hs' Hf'].
  apply stablySorted_unique_aux; [done..|]. intros x. by rewrite Hf, Hf'.
Qed.
End SortContract.

(** ** The derived lists *)

Lemma readPairs_frame h h' a :
  objects h' = objects h → arrays h' !! a = arrays h !! a →
  readPairs h' a = readPairs h a.
Proof. unfold readPairs. by intros -> ->. Qed.

Lemma readPairs_mk objs arrs a ps :
  arrs !! a = Some ps.*1 →
  Forall (λ p, objs !! p.1 = Some p.2) ps →
  readPairs (mkHeap objs arrs) a = Some ps.
Proof. intros Ha Hps. by apply readPairs_Some. Qed.

Lemma readPairs_new objs arrs ps :
  Forall (λ p, objs !! p.1 = Some p.2) ps →
  readPairs (mkHeap objs (arrs ++ [ps.*1])) (length arrs) = Some ps.
Proof.
  intros Hps. apply readPairs_Some. split; [apply lookup_snoc_new | done].
Qed.

Lemma sort_eq h a ps comparefn :
  readPairs h a = Some ps →
  sort a comparefn h =
    Ok ((), mkHeap (objects h)
              (<[a:=(stableSort (λ p q, comparefn p.2 q.2) ps).*1]> (arrays h))).
Proof.
  intros Hps. unfold sort. rewrite Hps.
  apply readPairs_Some in Hps as [Ha _]. unfold writeArr. by rewrite Ha.
Qed.

Lemma filterArr_eq h a ps pred :
  readPairs h a = Some ps →
  filterArr a pred h =
    Ok (length (arrays h),
        mkHeap (objects h) (arrays h ++ [(filter (λ p, pred p.2 = true) ps).*1])).
Proof. intros Hps. unfold filterArr. by rewrite Hps. Qed.

Section RenderFacts.
Variable localeCompare : string → string → Z.

Lemma sortedPairs_Permutation st ps : sortedPairs localeCompare st ps ≡ₚ ps.
Proof.
  unfold sortedPairs. case_decide; [apply stableSort_Permutation | done].
Qed.

Lemma sortedToDoList_eq st h ps :
  readPairs h (toDoList st) = Some ps →
  sortedToDoList localeCompare st h =
    Ok (length (arrays h),
        mkHeap (objects h) (arrays h ++ [(sortedPairs localeCompare st ps).*1])).
Proof.
  intros Hps. unfold sortedToDoList, sortedPairs.
  pose proof Hps as [Ha Hobjs]%readPairs_Some.
  rewrite (bind_Ok _ _ _ _ _ (spread_eq _ _ _ Ha)).
  case_decide; [|done].
  erewrite bind_Ok; [|by apply sort_eq, readPairs_new]. cbn.
  by rewrite insert_snoc_new.
Qed.

Lemma filteredToDoList_eq st h ps :
  readPairs h (toDoList st) = Some ps →
  filteredToDoList localeCompare st h =
    Ok (S (length (arrays h)),
        mkHeap (objects h)
          (arrays h ++ [(sortedPairs localeCompare st ps).*1;
                        (filteredPairs localeCompare st ps).*1])).
Proof.
  intros Hps. unfold filteredToDoList.
  rewrite (bind_Ok _ _ _ _ _ (sortedToDoList_eq _ _ _ Hps)).
  apply readPairs_Some in Hps as [_ Hobjs].
  erewrite filterArr_eq.
  - cbn. rewrite length_app, Nat.add_1_r. by rewrite <-app_assoc.
  - apply readPairs_new. by rewrite sortedPairs_Permutation.
Qed.

Lemma displayedRows_eq st h ps :
  readPairs h (toDoList st) = Some ps →
  displayedRows localeCompare st h = Some (filteredPairs localeCompare st ps).
Proof.
  intros Hps. unfold displayedRows. rewrite (filteredToDoList_eq _ _ _ Hps).
  apply readPairs_Some in Hps as [_ Hobjs].
  replace (S (length (arrays h)))
    with (length (arrays h ++ [(sortedPairs localeCompare st ps).*1]))
    by (rewrite length_app; simpl; lia).
  replace (arrays h ++ [(sortedPairs localeCompare st ps).*1;
                        (filteredPairs localeCompare st ps).*1])
    with ((arrays h ++ [(sortedPairs localeCompare st ps).*1])
          ++ [(filteredPairs localeCompare st ps).*1])
    by (by rewrite <-app_assoc).
  apply readPairs_new, Forall_forall.
  intros p [_ Hp]%list_elem_of_filter. revert p Hp. apply Forall_forall.
  by rewrite sortedPairs_Permutation.
Qed.

Lemma displayed_eq st h ps :
  readPairs h (toDoList st) = Some ps →
  displayed localeCompare st h = Some (filteredPairs localeCompare st ps).*2.
Proof. intros Hps. unfold displayed. by rewrite (displayedRows_eq _ _ _ Hps). Qed.
End RenderFacts.

(** ** Splicing *)

Lemma spliceList_fmap {A B} (f : A → B) (l : list A) start deleteCount :
  f <$> spliceList l start deleteCount = spliceList (f <$> l) start deleteCount.
Proof.
  unfold spliceList. rewrite length_fmap.
  destruct (spliceRange _ _ _) as [s d].
  by rewrite fmap_app, fmap_take, fmap_drop.
Qed.

Lemma spliceList_sublist {A} (l : list A) start deleteCount :
  spliceList l start deleteCount `sublist_of` l.
Proof.
  unfold spliceList.
  destruct (spliceRange _ _ _) as [s d] eqn:Hr.
  assert (0 ≤ s ∧ 0 ≤ d) as [Hs Hd].
  { unfold spliceRange in Hr. injection Hr as <- <-. case_decide; lia. }
  rewrite <-(take_drop (Z.to_nat s) l) at 3.
  apply sublist_app; [done|].
  replace (Z.to_nat (s + d)) with (Z.to_nat s + Z.to_nat d)%nat by lia.
  rewrite <-drop_drop. apply sublist_drop.
Qed.

(** At a position of the list, [splice(index, 1)] removes exactly that
    position. *)
Lemma spliceList_one {A} (l : list A) (i : nat) :
  (i < length l)%nat → spliceList l (Z.of_nat i) 1 = delete i l.
Proof.
  intros Hi. unfold spliceList, spliceRange.
  rewrite decide_False by lia.
  replace (Z.min (Z.of_nat i) (Z.of_nat (length l))) with (Z.of_nat i) by lia.
  replace (Z.min (Z.max 1 0) (Z.of_nat (length l) - Z.of_nat i)) with 1 by lia.
  rewrite Nat2Z.id. replace (Z.to_nat (Z.of_nat i + 1)) with (S i) by lia.
  by rewrite delete_take_drop.
Qed.

(** Past the end, [splice] removes nothing. *)
Lemma spliceList_past_end {A} (l : list A) index deleteCount :
  Z.of_nat (length l) ≤ index → spliceList l index deleteCount = l.
Proof.
  intros Hi. unfold spliceList, spliceRange.
  rewrite decide_False by lia.
  replace (Z.min index (Z.of_nat (length l))) with (Z.of_nat (length l)) by lia.
  replace (Z.min (Z.max deleteCount 0) (Z.of_nat (length l) - Z.of_nat (length l)))
    with 0 by lia.
  rewrite Z.add_0_r, Nat2Z.id. by rewrite take_ge, drop_ge, app_nil_r by lia.
Qed.

(** ** The handlers on the stored list *)

Lemma stores_refs_bound h a ps :
  readPairs h a = Some ps → Forall (λ o, (o < length (objects h))%nat) ps.*1.
Proof.
  intros [_ Hobjs]%readPairs_Some. apply Forall_fmap.
  eapply Forall_impl; [exact Hobjs|]. intros p Hp.
  apply (lookup_lt_Some _ _ _ Hp).
Qed.

(** Writing through one reference of a duplicate-free array changes the
    contents of that position only. *)
Lemma write_through (objs : list ToDo) (ps : list (obj_ref * ToDo)) i o t t' :
  NoDup ps.*1 →
  Forall (λ p, objs !! p.1 = Some p.2) ps →
  ps !! i = Some (o, t) →
  Forall (λ p, <[o:=t']> objs !! p.1 = Some p.2) (<[i:=(o, t')]> ps).
Proof.
  intros Hnd Hobjs Hi. apply Forall_lookup. intros j p Hj.
  destruct (decide (i = j)) as [->|Hne].
  - rewrite list_lookup_insert_eq in Hj by (by eapply lookup_lt_Some).
    injection Hj as <-. simpl. apply list_lookup_insert_eq.
    rewrite Forall_lookup in Hobjs. specialize (Hobjs _ _ Hi).
    by eapply lookup_lt_Some.
  - rewrite list_lookup_insert_ne in Hj by done.
    rewrite list_lookup_insert_ne.
    + rewrite Forall_lookup in Hobjs. by eapply Hobjs.
    + intros Ho. apply Hne. eapply NoDup_lookup; [exact Hnd| |].
      * by rewrite list_lookup_fmap, Hi.
      * by rewrite list_lookup_fmap, Hj; simpl; rewrite Ho.
Qed.

Lemma stores_add h st l :
  stores h st l → inputValue st ≠ EmptyString →
  ∃ st' h', handleAddToDo st h = Ok (st', h') ∧
    stores h' st' (l ++ [mkToDo (inputValue st) false]) ∧
    st' = setInputValue EmptyString (setToDoList (length (arrays h)) st).
Proof.
  intros (ps & Hps & Hnd & <-) Hs.
  pose proof (stores_refs_bound _ _ _ Hps) as Hbound.
  apply readPairs_Some in Hps as [Ha Hobjs].
  eexists _, _. split; [by apply handleAddToDo_nonempty|]. split; [|done].
  exists (ps ++ [(length (objects h), mkToDo (inputValue st) false)]).
  split; [|split].
  - apply readPairs_mk; st_simpl.
    + by rewrite lookup_snoc_new, fmap_app.
    + apply Forall_app. split.
      * eapply Forall_impl; [exact Hobjs|]. intros p Hp.
        by apply lookup_app_l_Some.
      * repeat constructor. simpl. apply lookup_snoc_new.
  - rewrite fmap_app. apply NoDup_app. split; [done|]. split.
    + intros o Ho [->|[]%elem_of_nil]%elem_of_cons.
      rewrite Forall_forall in Hbound. specialize (Hbound _ Ho).
      simpl in Hbound. lia.
    + apply NoDup_singleton.
  - by rewrite fmap_app.
Qed.

Lemma stores_toggle h st l (i : nat) t :
  stores h st l → l !! i = Some t →
  ∃ st' h', handleToggleCompleted (Z.of_nat i) st h = Ok (st', h') ∧
    stores h' st' (<[i:=mkToDo (text t) (negb (completed t))]> l) ∧
    st' = setToDoList (length (arrays h)) st.
Proof.
  intros (ps & Hps & Hnd & <-) Hi.
  apply list_lookup_fmap_Some in Hi as ([o t'] & -> & Hi). simpl.
  apply readPairs_Some in Hps as [Ha Hobjs].
  assert (objects h !! o = Some t') as Ho.
  { rewrite Forall_lookup in Hobjs. apply (Hobjs _ _ Hi). }
  eexists _, _. split; [|split; [|done]].
  - rewrite (handleToggleCompleted_eq _ _ _ _ Ha), nthZ_of_nat.
    by rewrite list_lookup_fmap, Hi; simpl; rewrite Ho.
  - exists (<[i:=(o, mkToDo (text t') (negb (completed t')))]> ps).
    split; [|split].
    + apply readPairs_mk; st_simpl; [|by eapply write_through].
      by rewrite lookup_snoc_new, list_fmap_insert, list_insert_id
        by (by rewrite list_lookup_fmap, Hi).
    + by rewrite list_fmap_insert, list_insert_id
        by (by rewrite list_lookup_fmap, Hi).
    + by rewrite list_fmap_insert.
Qed.

Lemma stores_edit h st l (i : nat) t newText :
  stores h st l → l !! i = Some t →
  ∃ st' h', handleEditToDo (Z.of_nat i) newText st h = Ok (st', h') ∧
    stores h' st' (<[i:=mkToDo newText (completed t)]> l) ∧
    st' = setEditIndex None (setToDoList (length (arrays h)) st).
Proof.
  intros (ps & Hps & Hnd & <-) Hi.
  apply list_lookup_fmap_Some in Hi as ([o t'] & -> & Hi). simpl.
  apply readPairs_Some in Hps as [Ha Hobjs].
  assert (objects h !! o = Some t') as Ho.
  { rewrite Forall_lookup in Hobjs. apply (Hobjs _ _ Hi). }
  eexists _, _. split; [|split; [|done]].
  - rewrite (handleEditToDo_eq _ _ _ _ _ Ha), nthZ_of_nat.
    by rewrite list_lookup_fmap, Hi; simpl; rewrite Ho.
  - exists (<[i:=(o, mkToDo newText (completed t'))]> ps).
    split; [|split].
    + apply readPairs_mk; st_simpl; [|by eapply write_through].
      by rewrite lookup_snoc_new, list_fmap_insert, list_insert_id
        by (by rewrite list_lookup_fmap, Hi).
    + by rewrite list_fmap_insert, list_insert_id
        by (by rewrite list_lookup_fmap, Hi).
    + by rewrite list_fmap_insert.
Qed.

Lemma stores_delete h st l index :
  stores h st l →
  ∃ st' h', handleDeleteToDo index st h = Ok (st', h') ∧
    stores h' st' (spliceList l index 1) ∧
    st' = setToDoList (length (arrays h)) st.
Proof.
  intros (ps & Hps & Hnd & <-).
  apply readPairs_Some in Hps as [Ha Hobjs].
  eexists _, _. split; [by apply handleDeleteToDo_eq|]. split; [|done].
  exists (spliceList ps index 1). split; [|split].
  - apply readPairs_mk; st_simpl.
    + by rewrite lookup_snoc_new, spliceList_fmap.
    + apply Forall_forall. intros p Hp. rewrite Forall_forall in Hobjs.
      apply Hobjs. eapply elem_of_sublist; [done | apply spliceList_sublist].
  - rewrite spliceList_fmap.
    eapply sublist_NoDup; [done | apply spliceList_sublist].
  - by rewrite spliceList_fmap.
Qed.

(** ** Sample states *)

Lemma run_zebraApple :
  run zebraApple initialState initialHeap = Ok (zebraAppleState, zebraAppleHeap).
Proof. reflexivity. Qed.

Lemma stores_initial : stores initialHeap initialState [].
Proof. exists []. split; [done|]. split; [constructor | done]. Qed.

Lemma run_milkBobHidden :
  run milkBobHidden initialState initialHeap = Ok (milkBobState, milkBobHeap).
Proof. reflexivity. Qed.

Lemma stores_milkBob st :
  toDoList st = 3%nat →
  stores milkBobHeap st [mkToDo "Buy milk" true; mkToDo "Call Bob" false].
Proof.
  intros Hst. exists [(0%nat, mkToDo "Buy milk" true); (1%nat, mkToDo "Call Bob" false)].
  rewrite Hst. split; [done|]. split; [|done].
  apply NoDup_cons. split; [|apply NoDup_singleton].
  by intros [=]%list_elem_of_singleton.
Qed.

Lemma stores_zebraApple st :
  toDoList st = 2%nat →
  stores zebraAppleHeap st [mkToDo "Zebra" false; mkToDo "Apple" false].
Proof.
  intros Hst. exists [(0%nat, mkToDo "Zebra" false); (1%nat, mkToDo "Apple" false)].
  rewrite Hst. split; [done|]. split; [|done].
  apply NoDup_cons. split; [|apply NoDup_singleton].
  by intros [=]%list_elem_of_singleton.
Qed.

(** * The claims *)

(** ** Adding *)

(** C4: with a non-empty input [s], adding appends the item
    [{text: s, completed: false}] at the end of the stored list, so the count
    grows by exactly one, and the input is cleared to the empty string. *)
Theorem C4_add_appends h st l s :
  stores h st l → inputValue st = s → s ≠ EmptyString →
  ∃ st' h', handleAddToDo st h = Ok (st', h') ∧
    stores h' st' (l ++ [mkToDo s false]) ∧
    items h' st' = Some (l ++ [mkToDo s false]) ∧
    length (l ++ [mkToDo s false]) = S (length l) ∧
    inputValue st' = EmptyString.
Proof.
  intros Hl <- Hs.
  destruct (stores_add _ _ _ Hl Hs) as (st' & h' & Hrun & Hl' & ->).
  eexists _, h'. split; [done|]. split; [done|]. split; [by apply stores_items|].
  split; [|done]. rewrite length_app. simpl. lia.
Qed.

Lemma C4_add_appends_witness :
  ∃ st' h',
    handleAddToDo (setInputValue "Pear" zebraAppleState) zebraAppleHeap
      = Ok (st', h') ∧
    stores h' st'
      ([mkToDo "Zebra" false; mkToDo "Apple" false] ++ [mkToDo "Pear" false]) ∧
    items h' st'
      = Some ([mkToDo "Zebra" false; mkToDo "Apple" false] ++ [mkToDo "Pear" false]) ∧
    length ([mkToDo "Zebra" false; mkToDo "Apple" false] ++ [mkToDo "Pear" false])
      = 3%nat ∧
    inputValue st' = EmptyString.
Proof.
  apply (C4_add_appends zebraAppleHeap (setInputValue "Pear" zebraAppleState)
           [mkToDo "Zebra" false; mkToDo "Apple" false] "Pear").
  - apply stores_zebraApple. reflexivity.
  - reflexivity.
  - discriminate.
Defined.

(** C8: with the empty string as input, adding is a silent no-op: the
    handler returns normally and neither the state nor the heap changes, so
    the stored list and its count are the same. *)
Theorem C8_add_empty_noop h st :
  inputValue st = EmptyString → handleAddToDo st h = Ok (st, h).
Proof. apply handleAddToDo_empty. Qed.

Lemma C8_add_empty_noop_witness :
  handleAddToDo zebraAppleState zebraAppleHeap
    = Ok (zebraAppleState, zebraAppleHeap).
Proof. apply (C8_add_empty_noop zebraAppleHeap zebraAppleState). reflexivity. Defined.

(** ** Deleting *)

(** X19: at a position of the stored list, deleting removes exactly the
    item at that storage position: the stored list becomes the items before
    it followed by the items after it, in their order, and the count drops
    by exactly one. *)
Theorem delete_at_position h st l index :
  stores h st l → 0 ≤ index < Z.of_nat (length l) →
  ∃ st' h' l', handleDeleteToDo index st h = Ok (st', h') ∧
    stores h' st' l' ∧
    l' = take (Z.to_nat index) l ++ drop (S (Z.to_nat index)) l ∧
    S (length l') = length l.
Proof.
  intros Hl Hi.
  destruct (stores_delete _ _ _ index Hl) as (st' & h' & Hrun & Hl' & ->).
  rewrite <-(Z2Nat.id index), spliceList_one, delete_take_drop in Hl' by lia.
  eexists _, h', _. split; [done|]. split; [done|]. split; [done|].
  rewrite length_app, length_take, length_drop. lia.
Qed.

Lemma delete_at_position_witness :
  ∃ st' h' l', handleDeleteToDo 0 zebraAppleState zebraAppleHeap = Ok (st', h') ∧
    stores h' st' l' ∧
    l' = take (Z.to_nat 0) [mkToDo "Zebra" false; mkToDo "Apple" false]
         ++ drop (S (Z.to_nat 0)) [mkToDo "Zebra" false; mkToDo "Apple" false] ∧
    S (length l') = length [mkToDo "Zebra" false; mkToDo "Apple" false].
Proof.
  apply (delete_at_position zebraAppleHeap zebraAppleState
           [mkToDo "Zebra" false; mkToDo "Apple" false] 0).
  - apply stores_zebraApple. reflexivity.
  - simpl. lia.
Defined.

(** ** View settings *)

(** C10: the filter button changes [showCompleted] only and the sort button
    changes [sortBy] only; both leave the heap, hence every stored item and
    the order, as well as [inputValue] and [editIndex], as they were. *)
Theorem C10_view_settings_frame h st :
  (∃ st', handleToggleShowCompleted st h = Ok (st', h) ∧
     showCompleted st' = negb (showCompleted st) ∧
     toDoList st' = toDoList st ∧ inputValue st' = inputValue st ∧
     editIndex st' = editIndex st ∧ sortBy st' = sortBy st ∧
     items h st' = items h st) ∧
  (∃ st', handleSortByName st h = Ok (st', h) ∧
     sortBy st' = Some "name"%string ∧
     toDoList st' = toDoList st ∧ inputValue st' = inputValue st ∧
     editIndex st' = editIndex st ∧ showCompleted st' = showCompleted st ∧
     items h st' = items h st).
Proof. split; eexists; (split; [reflexivity|]); by repeat split. Qed.

(** ** Sort mode *)

Lemma dispatch_sortBy e st h st' h' :
  dispatch e st h = Ok (st', h') →
  sortBy st' = sortBy st ∨ sortBy st' = Some "name"%string.
Proof.
  destruct e; simpl; intros Hrun;
    try (injection Hrun as <- <-; by auto).
  - unfold handleAddToDo in Hrun. destruct (truthy _).
    + repeat (apply bind_inv in Hrun as (? & ? & _ & Hrun)).
      injection Hrun as <- <-. by left.
    + injection Hrun as <- <-. by left.
  - unfold handleEditToDo in Hrun.
    repeat (apply bind_inv in Hrun as (? & ? & _ & Hrun)).
    injection Hrun as <- <-. by left.
  - unfold handleToggleCompleted in Hrun.
    repeat (apply bind_inv in Hrun as (? & ? & _ & Hrun)).
    injection Hrun as <- <-. by left.
  - unfold handleDeleteToDo in Hrun.
    repeat (apply bind_inv in Hrun as (? & ? & _ & Hrun)).
    injection Hrun as <- <-. by left.
Qed.

(** C9: once [sortBy] is ["name"], it is ["name"] in every state that any
    sequence of events leads to. *)
Theorem C9_sort_mode_sticks es st h st' h' :
  sortBy st = Some "name"%string →
  run es st h = Ok (st', h') →
  sortBy st' = Some "name"%string.
Proof.
  revert st h. induction es as [|e es IH]; intros st h Hs Hrun; simpl in Hrun.
  - by injection Hrun as <- <-.
  - apply bind_inv in Hrun as (st1 & h1 & He & Hrun).
    apply (IH st1 h1); [|done].
    destruct (dispatch_sortBy _ _ _ _ _ He) as [->|]; done.
Qed.

Lemma C9_sort_mode_sticks_witness :
  sortBy (mkState 6%nat EmptyString None false (Some "name"%string)) = Some "name"%string.
Proof.
  apply (C9_sort_mode_sticks
           [PressCheckBox 0; PressFilter; ChangeInput "Pear"; PressAdd; PressDelete 1;
            PressSort; LongPress 0; ChangeEdit 0 "Plum"]
           (setSortBy (Some "name"%string) zebraAppleState) zebraAppleHeap
           (mkState 6%nat EmptyString None false (Some "name"%string))
           (mkHeap [mkToDo "Plum" true; mkToDo "Apple" false; mkToDo "Pear" false]
                   [[]; [0]; [0; 1]; [0; 1]; [0; 1; 2]; [0; 2]; [0; 2]]%nat)).
  - reflexivity.
  - reflexivity.
Defined.

(** ** The derived view *)

Lemma filter_Forall_id {A} (P : A → Prop) `{∀ x, Decision (P x)} (l : list A) :
  Forall P l → filter P l = l.
Proof.
  induction 1 as [|x l Hx _ IH]; [done|].
  by rewrite filter_cons_True, IH.
Qed.

Lemma StronglySorted_filter {A} (R : A → A → Prop) (P : A → Prop)
    `{∀ x, Decision (P x)} (l : list A) :
  StronglySorted R l → StronglySorted R (filter P l).
Proof.
  induction 1 as [|x l _ IH Hx]; [constructor|].
  rewrite filter_cons. case_decide; [|done].
  constructor; [done|]. apply Forall_forall.
  intros y [_ Hy]%list_elem_of_filter. revert y Hy. by apply Forall_forall.
Qed.

Section ViewClaims.
Variable localeCompare : string → string → Z.

(** C3: rendering leaves storage alone.  For every state the render
    returns; it only allocates the two derived arrays behind the existing
    ones, writes to no object, and the array [toDoList] holds the same
    references in the same order afterwards, so the stored list is the
    same list, whatever the sort mode. *)
Theorem C3_render_preserves_storage h st l :
  stores h st l →
  ∃ a h', filteredToDoList localeCompare st h = Ok (a, h') ∧
    objects h' = objects h ∧
    arrays h `prefix_of` arrays h' ∧
    arrays h' !! toDoList st = arrays h !! toDoList st ∧
    stores h' st l.
Proof.
  intros (ps & Hps & Hnd & <-).
  eexists _, _. split; [by apply filteredToDoList_eq|].
  pose proof Hps as [Ha Hobjs]%readPairs_Some.
  assert ((arrays h ++ [(sortedPairs localeCompare st ps).*1;
                        (filteredPairs localeCompare st ps).*1])
          !! toDoList st = arrays h !! toDoList st) as Hsame.
  { rewrite Ha. by apply lookup_app_l_Some. }
  split; [done|]. split; [by apply prefix_app_r|]. split; [done|].
  exists ps. split; [|done].
  rewrite <-Hps. by apply readPairs_frame.
Qed.

(** C5: with [showCompleted] off no displayed item is completed; with it
    on the displayed list is as long as the stored one. *)
Theorem C5_filter_completed h st l :
  stores h st l →
  ∃ d, displayed localeCompare st h = Some d ∧
    (showCompleted st = false → Forall (λ toDo, completed toDo = false) d) ∧
    (showCompleted st = true → length d = length l).
Proof.
  intros (ps & Hps & Hnd & <-).
  eexists. split; [by apply displayed_eq|]. unfold filteredPairs. split.
  - intros Hoff. apply Forall_fmap, Forall_forall.
    intros p [Hp _]%list_elem_of_filter. unfold shown in Hp.
    rewrite Hoff in Hp. simpl in *. by apply negb_true_iff.
  - intros Hon. rewrite filter_Forall_id.
    + by rewrite !length_fmap, sortedPairs_Permutation.
    + apply Forall_forall. intros p _. unfold shown. by rewrite Hon.
Qed.
End ViewClaims.

Lemma C3_render_preserves_storage_witness :
  ∃ a h',
    filteredToDoList codeUnitCompare
      (setSortBy (Some "name"%string) zebraAppleState) zebraAppleHeap = Ok (a, h') ∧
    objects h' = objects zebraAppleHeap ∧
    arrays zebraAppleHeap `prefix_of` arrays h' ∧
    arrays h' !! 2%nat = arrays zebraAppleHeap !! 2%nat ∧
    stores h' (setSortBy (Some "name"%string) zebraAppleState)
      [mkToDo "Zebra" false; mkToDo "Apple" false].
Proof.
  apply (C3_render_preserves_storage codeUnitCompare zebraAppleHeap
           (setSortBy (Some "name"%string) zebraAppleState)).
  apply stores_zebraApple. reflexivity.
Defined.

Lemma C5_filter_completed_witness :
  ∃ d, displayed codeUnitCompare milkBobState milkBobHeap = Some d ∧
    (false = false → Forall (λ toDo, completed toDo = false) d) ∧
    (false = true → length d = 2%nat).
Proof.
  apply (C5_filter_completed codeUnitCompare milkBobHeap milkBobState
           [mkToDo "Buy milk" true; mkToDo "Call Bob" false]).
  apply stores_milkBob. reflexivity.
Defined.

(** The second scenario of the specification: after adding "Zebra" and
    "Apple" and pressing the sort button, the screen shows "Apple" above
    "Zebra" while storage still holds "Zebra" before "Apple". *)
Example zebraApple_sorted :
  ∃ st h, run (zebraApple ++ [PressSort]) initialState initialHeap = Ok (st, h) ∧
    displayed codeUnitCompare st h
      = Some [mkToDo "Apple" false; mkToDo "Zebra" false] ∧
    ∃ a h', filteredToDoList codeUnitCompare st h = Ok (a, h') ∧
      items h' st = Some [mkToDo "Zebra" false; mkToDo "Apple" false].
Proof.
  eexists _, _. split; [reflexivity|]. split; [reflexivity|].
  eexists _, _. split; reflexivity.
Qed.

(** ** Sorting by name *)

Lemma filter_fmap {A B} (f : A → B) (P : B → Prop) `{∀ y, Decision (P y)}
    (l : list A) :
  filter P (f <$> l) = f <$> filter (λ x, P (f x)) l.
Proof.
  induction l as [|x l IH]; [done|]. csimpl.
  rewrite !filter_cons, IH. by case_decide.
Qed.

(** The sample collation is a consistent comparison. *)
Lemma ascii_compare_le_trans a b c :
  Ascii.compare a b ≠ Gt → Ascii.compare b c ≠ Gt → Ascii.compare a c ≠ Gt.
Proof.
  unfold Ascii.compare. rewrite !N.compare_le_iff. lia.
Qed.

Lemma string_compare_refl s : String.compare s s = Eq.
Proof.
  induction s as [|a s IH]; simpl; [done|].
  unfold Ascii.compare. by rewrite N.compare_refl.
Qed.

Lemma string_compare_le_trans s1 s2 s3 :
  String.compare s1 s2 ≠ Gt → String.compare s2 s3 ≠ Gt →
  String.compare s1 s3 ≠ Gt.
Proof.
  revert s2 s3. induction s1 as [|a s1 IH]; intros [|b s2] [|c s3]; simpl;
    try done.
  destruct (Ascii.compare a b) eqn:Hab; [| |done];
    destruct (Ascii.compare b c) eqn:Hbc; try done.
  - apply Ascii.compare_eq_iff in Hab as ->, Hbc as ->.
    unfold Ascii.compare. rewrite N.compare_refl. apply IH.
  - apply Ascii.compare_eq_iff in Hab as ->. by rewrite Hbc.
  - apply Ascii.compare_eq_iff in Hbc as ->. by rewrite Hab.
  - intros _ _. unfold Ascii.compare in *.
    rewrite N.compare_lt_iff in Hab, Hbc.
    assert (N.compare (Ascii.N_of_ascii a) (Ascii.N_of_ascii c) = Lt) as ->;
      [|done].
    apply N.compare_lt_iff. lia.
Qed.

Lemma codeUnitCompare_refl s : codeUnitCompare s s = 0.
Proof. unfold codeUnitCompare. by rewrite string_compare_refl. Qed.

Lemma codeUnitCompare_le a b : codeUnitCompare a b ≤ 0 ↔ String.compare a b ≠ Gt.
Proof.
  unfold codeUnitCompare.
  destruct (String.compare a b); split; intros Hle; try done; try lia.
Qed.

Lemma codeUnitCompare_total a b :
  0 < codeUnitCompare a b → codeUnitCompare b a ≤ 0.
Proof.
  unfold codeUnitCompare. rewrite (String.compare_antisym b a).
  destruct (String.compare a b); simpl; lia.
Qed.

Lemma codeUnitCompare_trans a b c :
  codeUnitCompare a b ≤ 0 → codeUnitCompare b c ≤ 0 → codeUnitCompare a c ≤ 0.
Proof. rewrite !codeUnitCompare_le. apply string_compare_le_trans. Qed.

Section Collation.
Variable localeCompare : string → string → Z.

(** The collation is a consistent comparison function in the sense of
    the language: every string equals itself, any two strings are ordered
    one way or the other, and the order is transitive. *)
Hypothesis localeCompare_refl : ∀ s, localeCompare s s = 0.
Hypothesis localeCompare_total :
  ∀ a b, 0 < localeCompare a b → localeCompare b a ≤ 0.
Hypothesis localeCompare_trans :
  ∀ a b c, localeCompare a b ≤ 0 → localeCompare b c ≤ 0 →
           localeCompare a c ≤ 0.

Lemma filteredPairs_sorted st ps :
  sortBy st = Some "name"%string →
  StronglySorted (λ p q, localeCompare (text p.2) (text q.2) ≤ 0)
    (filteredPairs localeCompare st ps).
Proof.
  intros Hs. unfold filteredPairs, sortedPairs. rewrite decide_True by done.
  apply StronglySorted_filter.
  apply (stableSort_sorted (λ p q, byText localeCompare p.2 q.2)).
  - intros x y. apply localeCompare_total.
  - intros x y z. apply localeCompare_trans.
Qed.

Lemma filteredPairs_stable st ps s :
  filter (λ p, text p.2 = s) (filteredPairs localeCompare st ps)
  = filter (λ p, text p.2 = s) (filter (λ p, shown st p.2 = true) ps).
Proof.
  unfold filteredPairs, sortedPairs. case_decide; [|done].
  rewrite !list_filter_filter. apply stableSort_filter.
  intros x y [Hx _] [Hy _]. unfold byText.
  rewrite Hx, Hy, localeCompare_refl. lia.
Qed.

(** C7: with [sortBy] set to ["name"], the displayed list ascends in the
    collation order of the texts, and the sort is stable: for every text
    [s], the displayed items with text [s] are the shown stored items with
    text [s] in their storage order.  The last part says the same of the
    displayed objects themselves. *)
Theorem C7_sort_by_name_stable h st l :
  stores h st l → sortBy st = Some "name"%string →
  ∃ d, displayed localeCompare st h = Some d ∧
    StronglySorted (λ a b, localeCompare (text a) (text b) ≤ 0) d ∧
    (∀ s, filter (λ toDo, text toDo = s) d
          = filter (λ toDo, text toDo = s)
              (filter (λ toDo, shown st toDo = true) l)) ∧
    ∃ ps rows, readPairs h (toDoList st) = Some ps ∧
      displayedRows localeCompare st h = Some rows ∧
      ∀ s, filter (λ p, text p.2 = s) rows
           = filter (λ p, text p.2 = s) (filter (λ p, shown st p.2 = true) ps).
Proof.
  intros (ps & Hps & Hnd & <-) Hs.
  eexists. split; [by apply displayed_eq|]. split; [|split].
  - eapply StronglySorted_fmap; [|by apply filteredPairs_sorted].
    by intros p q.
  - intros s. by rewrite !filter_fmap, filteredPairs_stable.
  - exists ps, (filteredPairs localeCompare st ps).
    split; [done|]. split; [by apply displayedRows_eq|].
    apply filteredPairs_stable.
Qed.
End Collation.

Lemma C7_sort_by_name_stable_witness :
  ∃ d, displayed codeUnitCompare
         (setSortBy (Some "name"%string) zebraAppleState) zebraAppleHeap = Some d ∧
    StronglySorted (λ a b, codeUnitCompare (text a) (text b) ≤ 0) d ∧
    (∀ s, filter (λ toDo, text toDo = s) d
          = filter (λ toDo, text toDo = s)
              (filter (λ toDo,
                 shown (setSortBy (Some "name"%string) zebraAppleState) toDo = true)
                 [mkToDo "Zebra" false; mkToDo "Apple" false])) ∧
    ∃ ps rows, readPairs zebraAppleHeap 2%nat = Some ps ∧
      displayedRows codeUnitCompare
        (setSortBy (Some "name"%string) zebraAppleState) zebraAppleHeap = Some rows ∧
      ∀ s, filter (λ p, text p.2 = s) rows
           = filter (λ p, text p.2 = s)
               (filter (λ p,
                  shown (setSortBy (Some "name"%string) zebraAppleState) p.2 = true)
                  ps).
Proof.
  apply (C7_sort_by_name_stable codeUnitCompare codeUnitCompare_refl
           codeUnitCompare_total codeUnitCompare_trans zebraAppleHeap
           (setSortBy (Some "name"%string) zebraAppleState)
           [mkToDo "Zebra" false; mkToDo "Apple" false]).
  - apply stores_zebraApple. reflexivity.
  - reflexivity.
Defined.

(** ** Totality *)

Lemma stores_toDoList h st st' l :
  toDoList st' = toDoList st → stores h st l → stores h st' l.
Proof. unfold stores. by intros ->. Qed.

Lemma dispatch_in_range h st l e :
  stores h st l → inRange (length l) e →
  ∃ st' h' l', dispatch e st h = Ok (st', h') ∧ stores h' st' l'.
Proof.
  intros Hl He. destruct e as [s| |index s| |index|index|index| |]; simpl in *.
  - eexists _, h, l. split; [done|]. by eapply stores_toDoList.
  - destruct (decide (inputValue st = EmptyString)) as [Hs|Hs].
    + exists st, h, l. split; [by apply handleAddToDo_empty | done].
    + destruct (stores_add _ _ _ Hl Hs) as (st' & h' & Hrun & Hl' & _). eauto.
  - destruct (lookup_lt_is_Some_2 l (Z.to_nat index)) as [t Ht]; [lia|].
    destruct (stores_edit _ _ _ _ _ s Hl Ht) as (st' & h' & Hrun & Hl' & _).
    rewrite Z2Nat.id in Hrun by lia. eauto.
  - eexists _, h, l. split; [done|]. by eapply stores_toDoList.
  - destruct (lookup_lt_is_Some_2 l (Z.to_nat index)) as [t Ht]; [lia|].
    destruct (stores_toggle _ _ _ _ _ Hl Ht) as (st' & h' & Hrun & Hl' & _).
    rewrite Z2Nat.id in Hrun by lia. eauto.
  - eexists _, h, l. split; [done|]. by eapply stores_toDoList.
  - destruct (stores_delete _ _ _ index Hl) as (st' & h' & Hrun & Hl' & _). eauto.
  - eexists _, h, l. split; [done|]. by eapply stores_toDoList.
  - eexists _, h, l. split; [done|]. by eapply stores_toDoList.
Qed.

Lemma dispatch_out_of_range h st l e :
  stores h st l → ¬ inRange (length l) e → dispatch e st h = Throw TypeError.
Proof.
  intros (ps & Hps & _ & <-) He. apply readPairs_Some in Hps as [Ha _].
  rewrite length_fmap in He.
  destruct e as [s| |index s| |index|index|index| |]; simpl in *; try done.
  - rewrite (handleEditToDo_eq _ _ _ _ _ Ha).
    by rewrite (proj2 (nthZ_None _ _)) by (by rewrite length_fmap).
  - rewrite (handleToggleCompleted_eq _ _ _ _ Ha).
    by rewrite (proj2 (nthZ_None _ _)) by (by rewrite length_fmap).
Qed.

Lemma offered_inRange n m st e : (n ≤ m)%nat → offered n st e → inRange m e.
Proof. destruct e; simpl; try done; lia. Qed.

Section Totality.
Variable localeCompare : string → string → Z.

Lemma displayed_length h st l :
  stores h st l →
  ∃ d, displayed localeCompare st h = Some d ∧ (length d ≤ length l)%nat.
Proof.
  intros (ps & Hps & _ & <-). eexists. split; [by apply displayed_eq|].
  rewrite !length_fmap. unfold filteredPairs.
  etrans; [apply length_filter|]. by rewrite sortedPairs_Permutation.
Qed.

(** C2, as the code has it: an event succeeds exactly when its index
    argument, if it is a toggle or an edit, is a position of the stored
    list, and then the result is again a well-formed store; a toggle or
    an edit at any other index raises [TypeError].  The displayed list is
    never longer than the stored one, so every event the screen offers
    succeeds. *)
Theorem C2_total_within_storage h st l :
  stores h st l →
  (∀ e, inRange (length l) e →
        ∃ st' h' l', dispatch e st h = Ok (st', h') ∧ stores h' st' l') ∧
  (∀ e, ¬ inRange (length l) e → dispatch e st h = Throw TypeError) ∧
  (∃ d, displayed localeCompare st h = Some d ∧
        (length d ≤ length l)%nat ∧
        ∀ e, offered (length d) st e →
             ∃ st' h' l', dispatch e st h = Ok (st', h') ∧ stores h' st' l').
Proof.
  intros Hl. split; [|split].
  - intros e. by apply dispatch_in_range.
  - intros e. by apply dispatch_out_of_range.
  - destruct (displayed_length _ _ _ Hl) as (d & Hd & Hlen).
    exists d. split; [done|]. split; [done|]. intros e He.
    eapply dispatch_in_range; [done|]. by eapply offered_inRange.
Qed.

(** No run of offered events raises an exception. *)
Lemma run_offered_total es h st l :
  stores h st l → offeredRun localeCompare es st h →
  ∃ st' h' l', run es st h = Ok (st', h') ∧ stores h' st' l'.
Proof.
  revert h st l. induction es as [|e es IH]; intros h st l Hl Hes; simpl.
  - by exists st, h, l.
  - destruct Hes as [(d & Hd & He) Hnext].
    destruct (displayed_length _ _ _ Hl) as (d' & Hd' & Hlen).
    assert (d' = d) as -> by congruence.
    destruct (dispatch_in_range h st l e Hl) as (st1 & h1 & l1 & Hrun & Hl1);
      [by eapply offered_inRange|].
    rewrite (bind_Ok _ _ _ _ _ Hrun). eapply IH; eauto.
Qed.
End Totality.

Lemma dispatch_no_dangling h st l e :
  stores h st l → dispatch e st h ≠ Throw DanglingRef.
Proof.
  intros Hl. destruct (decide (inRange (length l) e)) as [He|He].
  - destruct (dispatch_in_range _ _ _ _ Hl He) as (? & ? & ? & -> & _). done.
  - by rewrite (dispatch_out_of_range _ _ _ _ Hl He).
Qed.

(** Every state the component can be in stores a list: the invariant holds
    initially and every event that returns keeps it. *)
Lemma dispatch_stores h st l e st' h' :
  stores h st l → dispatch e st h = Ok (st', h') → ∃ l', stores h' st' l'.
Proof.
  intros Hl Hrun. destruct (decide (inRange (length l) e)) as [He|He].
  - destruct (dispatch_in_range _ _ _ _ Hl He) as (st1 & h1 & l1 & Hrun1 & Hl1).
    rewrite Hrun in Hrun1. injection Hrun1 as <- <-. eauto.
  - by rewrite (dispatch_out_of_range _ _ _ _ Hl He) in Hrun.
Qed.

Lemma run_stores es h st l st' h' :
  stores h st l → run es st h = Ok (st', h') → ∃ l', stores h' st' l'.
Proof.
  revert h st l. induction es as [|e es IH]; intros h st l Hl Hrun; simpl in Hrun.
  - injection Hrun as <- <-. eauto.
  - apply bind_inv in Hrun as (st1 & h1 & He & Hrun).
    destruct (dispatch_stores _ _ _ _ _ _ Hl He) as [l1 Hl1]. eauto.
Qed.

Lemma reachable_stores es st h :
  run es initialState initialHeap = Ok (st, h) → ∃ l, stores h st l.
Proof. apply run_stores with [], stores_initial. Qed.

(** Deleting past the end is the silent no-op: the stored list is the same
    afterwards. *)
Lemma delete_past_end_noop h st l index :
  stores h st l → Z.of_nat (length l) ≤ index →
  ∃ st' h', handleDeleteToDo index st h = Ok (st', h') ∧ stores h' st' l.
Proof.
  intros Hl Hi.
  destruct (stores_delete _ _ _ index Hl) as (st' & h' & Hrun & Hl' & _).
  rewrite spliceList_past_end in Hl' by done. eauto.
Qed.

(** C2, as stated, fails: on the empty list a toggle or an edit at index 0
    raises [TypeError], and so does an edit past the end of a two-item
    list. *)
Lemma C2_out_of_range_throws :
  handleToggleCompleted 0 initialState initialHeap = Throw TypeError ∧
  handleEditToDo 0 "Pear" initialState initialHeap = Throw TypeError ∧
  handleEditToDo 2 "Pear" zebraAppleState zebraAppleHeap = Throw TypeError ∧
  ¬ ∃ st' h', dispatch (PressCheckBox (-1)) zebraAppleState zebraAppleHeap
              = Ok (st', h').
Proof. repeat split; try reflexivity. by intros (? & ? & [=]). Qed.

Lemma C2_total_within_storage_witness :
  (∀ e, inRange 2 e →
        ∃ st' h' l', dispatch e zebraAppleState zebraAppleHeap = Ok (st', h') ∧
                     stores h' st' l') ∧
  (∀ e, ¬ inRange 2 e →
        dispatch e zebraAppleState zebraAppleHeap = Throw TypeError) ∧
  (∃ d, displayed codeUnitCompare zebraAppleState zebraAppleHeap = Some d ∧
        (length d ≤ 2)%nat ∧
        ∀ e, offered (length d) zebraAppleState e →
             ∃ st' h' l', dispatch e zebraAppleState zebraAppleHeap = Ok (st', h') ∧
                          stores h' st' l').
Proof.
  apply (C2_total_within_storage codeUnitCompare zebraAppleHeap zebraAppleState
           [mkToDo "Zebra" false; mkToDo "Apple" false]).
  apply stores_zebraApple. reflexivity.
Defined.

(** ** Toggling *)

(** What the toggle does: it flips the item at position [index] of the
    stored list, and nothing else in it. *)
Lemma toggle_flips_storage_position h st l index t :
  stores h st l → 0 ≤ index → l !! Z.to_nat index = Some t →
  ∃ st' h', handleToggleCompleted index st h = Ok (st', h') ∧
    stores h' st' (<[Z.to_nat index:=mkToDo (text t) (negb (completed t))]> l).
Proof.
  intros Hl Hi Ht.
  destruct (stores_toggle _ _ _ _ _ Hl Ht) as (st' & h' & Hrun & Hl' & _).
  rewrite Z2Nat.id in Hrun by done. eauto.
Qed.

(** Without a sort mode and with completed items shown, the displayed list
    is the stored list, and the displayed index is the storage index. *)
Lemma displayed_plain localeCompare h st l :
  stores h st l → sortBy st = None → showCompleted st = true →
  displayed localeCompare st h = Some l.
Proof.
  intros (ps & Hps & _ & <-) Hs Hc. rewrite (displayed_eq _ _ _ _ Hps).
  unfold filteredPairs, sortedPairs. rewrite Hs, decide_False by done.
  rewrite filter_Forall_id; [done|].
  apply Forall_forall. intros p _. unfold shown. by rewrite Hc.
Qed.

(** C1 fails on the code: the handler uses the displayed index as a storage
    index.  After adding "Buy milk" and "Call Bob", completing the first and
    hiding completed items, the only displayed row is "Call Bob", at index 0;
    its check box flips "Buy milk", the hidden item at storage position 0,
    and leaves "Call Bob" as it was. *)
Theorem C1_toggle_uses_storage_index localeCompare :
  ∃ st h, run milkBobHidden initialState initialHeap = Ok (st, h) ∧
    showCompleted st = false ∧
    items h st = Some [mkToDo "Buy milk" true; mkToDo "Call Bob" false] ∧
    displayed localeCompare st h = Some [mkToDo "Call Bob" false] ∧
    ∃ st' h', handleToggleCompleted 0 st h = Ok (st', h') ∧
      items h' st' = Some [mkToDo "Buy milk" false; mkToDo "Call Bob" false].
Proof.
  exists milkBobState, milkBobHeap. repeat split.
  eexists _, _. split; reflexivity.
Qed.

(** C6 fails on the code, by the same use of the displayed index as a
    storage index.  In the state above the screen shows the single row
    "Call Bob" and offers its delete button, at index 0; the handler removes
    "Buy milk", the hidden item at storage position 0.  The count drops by
    one and the order is kept, but the item of the row is still stored and
    still displayed, and another item is gone. *)
Theorem C6_delete_uses_storage_index localeCompare :
  ∃ st h, run milkBobHidden initialState initialHeap = Ok (st, h) ∧
    items h st = Some [mkToDo "Buy milk" true; mkToDo "Call Bob" false] ∧
    displayed localeCompare st h = Some [mkToDo "Call Bob" false] ∧
    offered 1 st (PressDelete 0) ∧
    ∃ st' h', handleDeleteToDo 0 st h = Ok (st', h') ∧
      items h' st' = Some [mkToDo "Call Bob" false] ∧
      displayed localeCompare st' h' = Some [mkToDo "Call Bob" false].
Proof.
  exists milkBobState, milkBobHeap. repeat split; [simpl; lia.. | done |].
  eexists _, _. repeat split.
Qed.

(** The same under a sort: with "Zebra" and "Apple" sorted by name, row 0
    shows "Apple" and its delete button removes "Zebra". *)
Example delete_under_sort :
  ∃ st h, run (zebraApple ++ [PressSort]) initialState initialHeap = Ok (st, h) ∧
    displayed codeUnitCompare st h
      = Some [mkToDo "Apple" false; mkToDo "Zebra" false] ∧
    ∃ st' h', handleDeleteToDo 0 st h = Ok (st', h') ∧
      items h' st' = Some [mkToDo "Apple" false].
Proof.
  eexists _, _. split; [reflexivity|]. split; [reflexivity|].
  eexists _, _. split; reflexivity.
Qed.

(** The same under a sort: with "Zebra" and "Apple" sorted by name, row 0
    shows "Apple" and its check box completes "Zebra". *)
Example toggle_under_sort :
  ∃ st h, run (zebraApple ++ [PressSort]) initialState initialHeap = Ok (st, h) ∧
    displayed codeUnitCompare st h
      = Some [mkToDo "Apple" false; mkToDo "Zebra" false] ∧
    ∃ st' h', handleToggleCompleted 0 st h = Ok (st', h') ∧
      items h' st' = Some [mkToDo "Zebra" true; mkToDo "Apple" false] ∧
      displayed codeUnitCompare st' h'
        = Some [mkToDo "Apple" false; mkToDo "Zebra" true].
Proof.
  eexists _, _. split; [reflexivity|]. split; [reflexivity|].
  eexists _, _. split; [reflexivity|]. split; reflexivity.
Qed.

(** * Further properties of the handlers *)

(** ** Toggling and editing *)

Lemma flip_flip (t : ToDo) :
  mkToDo (text (mkToDo (text t) (negb (completed t))))
         (negb (completed (mkToDo (text t) (negb (completed t))))) = t.
Proof. destruct t as [s c]. simpl. by rewrite negb_involutive. Qed.

(** X1: at a position of the stored list, the toggle flips [completed] of
    the item at that position, keeps its text, leaves every other position
    of the list as it is, and changes no other cell of the state. *)
Theorem toggle_at_position h st l index t :
  stores h st l → 0 ≤ index → l !! Z.to_nat index = Some t →
  ∃ st' h' l', handleToggleCompleted index st h = Ok (st', h') ∧
    stores h' st' l' ∧
    length l' = length l ∧
    l' !! Z.to_nat index = Some (mkToDo (text t) (negb (completed t))) ∧
    (∀ j, j ≠ Z.to_nat index → l' !! j = l !! j) ∧
    inputValue st' = inputValue st ∧ editIndex st' = editIndex st ∧
    showCompleted st' = showCompleted st ∧ sortBy st' = sortBy st.
Proof.
  intros Hl Hi Ht.
  destruct (stores_toggle _ _ _ _ _ Hl Ht) as (st' & h' & Hrun & Hl' & ->).
  rewrite Z2Nat.id in Hrun by done.
  eexists _, h', _. split; [done|]. split; [done|].
  split; [by rewrite length_insert|]. split.
  - apply list_lookup_insert_eq. by eapply lookup_lt_Some.
  - split; [|done]. intros j Hj. by apply list_lookup_insert_ne.
Qed.

Lemma toggle_at_position_witness :
  ∃ st' h' l', handleToggleCompleted 1 zebraAppleState zebraAppleHeap = Ok (st', h') ∧
    stores h' st' l' ∧
    length l' = 2%nat ∧
    l' !! Z.to_nat 1 = Some (mkToDo "Apple" true) ∧
    (∀ j, j ≠ Z.to_nat 1 →
          l' !! j = [mkToDo "Zebra" false; mkToDo "Apple" false] !! j) ∧
    inputValue st' = EmptyString ∧ editIndex st' = None ∧
    showCompleted st' = true ∧ sortBy st' = None.
Proof.
  apply (toggle_at_position zebraAppleHeap zebraAppleState
           [mkToDo "Zebra" false; mkToDo "Apple" false] 1 (mkToDo "Apple" false)).
  - apply stores_zebraApple. reflexivity.
  - lia.
  - reflexivity.
Defined.

(** X2: toggling the same position twice gives back the stored list. *)
Theorem toggle_twice_restores h st l index :
  stores h st l → 0 ≤ index < Z.of_nat (length l) →
  ∃ st' h', run [PressCheckBox index; PressCheckBox index] st h = Ok (st', h') ∧
    stores h' st' l.
Proof.
  intros Hl Hi.
  destruct (lookup_lt_is_Some_2 l (Z.to_nat index)) as [t Ht]; [lia|].
  destruct (stores_toggle _ _ _ _ _ Hl Ht) as (st1 & h1 & Hrun1 & Hl1 & _).
  assert (<[Z.to_nat index:=mkToDo (text t) (negb (completed t))]> l
          !! Z.to_nat index = Some (mkToDo (text t) (negb (completed t)))) as Ht1.
  { apply list_lookup_insert_eq. lia. }
  destruct (stores_toggle _ _ _ _ _ Hl1 Ht1) as (st2 & h2 & Hrun2 & Hl2 & _).
  rewrite Z2Nat.id in Hrun1, Hrun2 by lia.
  exists st2, h2. split.
  - simpl. rewrite (bind_Ok _ _ _ _ _ Hrun1). by rewrite (bind_Ok _ _ _ _ _ Hrun2).
  - by rewrite list_insert_insert_eq, flip_flip, list_insert_id in Hl2.
Qed.

Lemma toggle_twice_restores_witness :
  ∃ st' h', run [PressCheckBox 0; PressCheckBox 0] milkBobState milkBobHeap
            = Ok (st', h') ∧
    stores h' st' [mkToDo "Buy milk" true; mkToDo "Call Bob" false].
Proof.
  apply (toggle_twice_restores milkBobHeap milkBobState
           [mkToDo "Buy milk" true; mkToDo "Call Bob" false] 0).
  - apply stores_milkBob. reflexivity.
  - simpl. lia.
Defined.

(** X3: at a position of the stored list, an edit replaces the text of the
    item at that position by any string, the empty one included, keeps its
    [completed] flag and every other item, and leaves edit mode; the filter,
    the sort mode and the pending input stay. *)
Theorem edit_at_position h st l index t newText :
  stores h st l → 0 ≤ index → l !! Z.to_nat index = Some t →
  ∃ st' h' l', handleEditToDo index newText st h = Ok (st', h') ∧
    stores h' st' l' ∧
    length l' = length l ∧
    l' !! Z.to_nat index = Some (mkToDo newText (completed t)) ∧
    (∀ j, j ≠ Z.to_nat index → l' !! j = l !! j) ∧
    editIndex st' = None ∧
    inputValue st' = inputValue st ∧
    showCompleted st' = showCompleted st ∧ sortBy st' = sortBy st.
Proof.
  intros Hl Hi Ht.
  destruct (stores_edit _ _ _ _ _ newText Hl Ht) as (st' & h' & Hrun & Hl' & ->).
  rewrite Z2Nat.id in Hrun by done.
  eexists _, h', _. split; [done|]. split; [done|].
  split; [by rewrite length_insert|]. split.
  - apply list_lookup_insert_eq. by eapply lookup_lt_Some.
  - split; [|done]. intros j Hj. by apply list_lookup_insert_ne.
Qed.

Lemma edit_at_position_witness :
  ∃ st' h' l',
    handleEditToDo 0 EmptyString (setEditIndex (Some 0) milkBobState) milkBobHeap
      = Ok (st', h') ∧
    stores h' st' l' ∧
    length l' = 2%nat ∧
    l' !! Z.to_nat 0 = Some (mkToDo EmptyString true) ∧
    (∀ j, j ≠ Z.to_nat 0 →
          l' !! j = [mkToDo "Buy milk" true; mkToDo "Call Bob" false] !! j) ∧
    editIndex st' = None ∧
    inputValue st' = EmptyString ∧
    showCompleted st' = false ∧ sortBy st' = None.
Proof.
  apply (edit_at_position milkBobHeap (setEditIndex (Some 0) milkBobState)
           [mkToDo "Buy milk" true; mkToDo "Call Bob" false] 0
           (mkToDo "Buy milk" true) EmptyString).
  - apply stores_milkBob. reflexivity.
  - lia.
  - reflexivity.
Defined.

(** ** Deleting at the edges *)

(** A negative [start] within the array counts from its end. *)
Lemma spliceList_from_end {A} (l : list A) (k : nat) :
  (1 ≤ k ≤ length l)%nat →
  spliceList l (- Z.of_nat k) 1 = delete (length l - k)%nat l.
Proof.
  intros Hk. unfold spliceList, spliceRange.
  rewrite decide_True by lia.
  replace (Z.max (Z.of_nat (length l) + - Z.of_nat k) 0)
    with (Z.of_nat (length l - k)%nat) by lia.
  replace (Z.min (Z.max 1 0) (Z.of_nat (length l) - Z.of_nat (length l - k)%nat))
    with 1 by lia.
  rewrite Nat2Z.id.
  replace (Z.to_nat (Z.of_nat (length l - k)%nat + 1)) with (S (length l - k)) by lia.
  by rewrite delete_take_drop.
Qed.

(** X4: deleting at an index at or past the end of the stored list removes
    nothing: the handler returns and the stored list is the same. *)
Theorem delete_past_end_keeps_list h st l index :
  stores h st l → Z.of_nat (length l) ≤ index →
  ∃ st' h', handleDeleteToDo index st h = Ok (st', h') ∧ stores h' st' l.
Proof.
  intros Hl Hi.
  destruct (stores_delete _ _ _ index Hl) as (st' & h' & Hrun & Hl' & _).
  rewrite spliceList_past_end in Hl' by done. eauto.
Qed.

Lemma delete_past_end_keeps_list_witness :
  ∃ st' h', handleDeleteToDo 2 zebraAppleState zebraAppleHeap = Ok (st', h') ∧
    stores h' st' [mkToDo "Zebra" false; mkToDo "Apple" false].
Proof.
  apply (delete_past_end_keeps_list zebraAppleHeap zebraAppleState
           [mkToDo "Zebra" false; mkToDo "Apple" false] 2).
  - apply stores_zebraApple. reflexivity.
  - simpl. lia.
Defined.

(** X5: a negative index is not rejected: [-k], for [k] between 1 and the
    length of the stored list, deletes the [k]-th item from the end. *)
Theorem delete_negative_counts_from_end h st l (k : nat) :
  stores h st l → (1 ≤ k ≤ length l)%nat →
  ∃ st' h', handleDeleteToDo (- Z.of_nat k) st h = Ok (st', h') ∧
    stores h' st' (take (length l - k)%nat l ++ drop (S (length l - k)) l).
Proof.
  intros Hl Hk.
  destruct (stores_delete _ _ _ (- Z.of_nat k) Hl) as (st' & h' & Hrun & Hl' & _).
  rewrite spliceList_from_end, delete_take_drop in Hl' by done. eauto.
Qed.

Lemma delete_negative_counts_from_end_witness :
  ∃ st' h', handleDeleteToDo (- Z.of_nat 1) zebraAppleState zebraAppleHeap
            = Ok (st', h') ∧
    stores h' st'
      (take (2 - 1)%nat [mkToDo "Zebra" false; mkToDo "Apple" false]
       ++ drop (S (2 - 1)) [mkToDo "Zebra" false; mkToDo "Apple" false]).
Proof.
  apply (delete_negative_counts_from_end zebraAppleHeap zebraAppleState
           [mkToDo "Zebra" false; mkToDo "Apple" false] 1).
  - apply stores_zebraApple. reflexivity.
  - simpl. lia.
Defined.

(** * Further properties of the derived lists *)

Section ViewFacts.
Variable localeCompare : string → string → Z.

Lemma filteredToDoList_stores h st l a h' :
  stores h st l → filteredToDoList localeCompare st h = Ok (a, h') →
  stores h' st l.
Proof.
  intros (ps & Hps & Hnd & <-) Hrun.
  rewrite (filteredToDoList_eq _ _ _ _ Hps) in Hrun. injection Hrun as <- <-.
  exists ps. split; [|done]. rewrite <-Hps. apply readPairs_frame; [done|].
  apply readPairs_Some in Hps as [Ha _]. cbn. rewrite Ha.
  by apply lookup_app_l_Some.
Qed.

Lemma displayed_items h st l :
  stores h st l →
  displayed localeCompare st h =
    Some (filter (λ toDo, shown st toDo = true)
            (if decide (sortBy st = Some "name"%string)
             then stableSort (byText localeCompare) l else l)).
Proof.
  intros (ps & Hps & _ & <-). rewrite (displayed_eq _ _ _ _ Hps). f_equal.
  assert ((if decide (sortBy st = Some "name"%string)
           then stableSort (byText localeCompare) ps.*2 else ps.*2)
          = (sortedPairs localeCompare st ps).*2) as ->.
  { unfold sortedPairs. case_decide; [|done].
    by rewrite <-(stableSort_fmap snd (byText localeCompare)). }
  by rewrite filter_fmap.
Qed.

(** X6: the displayed list is a function of the stored items and the two
    view settings alone: the stored list, stably sorted by text when
    [sortBy] is ["name"], with the completed items dropped when
    [showCompleted] is off.  Neither the heap layout nor [inputValue] nor
    [editIndex] enters. *)
Theorem displayed_is_sort_then_filter h st l :
  stores h st l →
  displayed localeCompare st h =
    Some (filter (λ toDo, shown st toDo = true)
            (if decide (sortBy st = Some "name"%string)
             then stableSort (byText localeCompare) l else l)).
Proof. apply displayed_items. Qed.

(** X7: the rows on screen are the shown objects of storage, each exactly
    once: a permutation of the stored objects that pass the filter, so the
    sort neither loses nor repeats an item. *)
Theorem displayed_rows_permutation h st l :
  stores h st l →
  ∃ ps rows, readPairs h (toDoList st) = Some ps ∧
    displayedRows localeCompare st h = Some rows ∧
    rows ≡ₚ filter (λ p, shown st p.2 = true) ps ∧
    NoDup rows.*1.
Proof.
  intros (ps & Hps & Hnd & _).
  exists ps, (filteredPairs localeCompare st ps).
  split; [done|]. split; [by apply displayedRows_eq|].
  unfold filteredPairs. split.
  - by rewrite sortedPairs_Permutation.
  - eapply sublist_NoDup; [|apply fmap_sublist, sublist_filter].
    by rewrite sortedPairs_Permutation.
Qed.

(** X8: rendering again gives the same displayed list: the arrays a render
    allocates do not change what the next render shows. *)
Theorem render_twice_same_display h st l a h' :
  stores h st l → filteredToDoList localeCompare st h = Ok (a, h') →
  displayed localeCompare st h' = displayed localeCompare st h.
Proof.
  intros Hl Hrun.
  rewrite (displayed_items _ _ _ Hl).
  by rewrite (displayed_items _ _ _ (filteredToDoList_stores _ _ _ _ _ Hl Hrun)).
Qed.

(** X9: in the plain view (no sort mode, completed items shown) the check
    box of displayed row [index] flips the item of that row: the displayed
    list afterwards is the one before with that row flipped. *)
Theorem toggle_plain_view h st l index t :
  stores h st l → sortBy st = None → showCompleted st = true →
  0 ≤ index → l !! Z.to_nat index = Some t →
  displayed localeCompare st h = Some l ∧
  ∃ st' h', handleToggleCompleted index st h = Ok (st', h') ∧
    displayed localeCompare st' h'
    = Some (<[Z.to_nat index:=mkToDo (text t) (negb (completed t))]> l).
Proof.
  intros Hl Hs Hc Hi Ht. split; [by apply displayed_plain|].
  destruct (stores_toggle _ _ _ _ _ Hl Ht) as (st' & h' & Hrun & Hl' & ->).
  rewrite Z2Nat.id in Hrun by done.
  eexists _, h'. split; [done|]. by apply displayed_plain.
Qed.

(** X10: a newly added item is always on screen, whatever the view
    settings, and without a sort mode it is the last row under the rows
    that were there. *)
Theorem added_item_is_displayed h st l :
  stores h st l → inputValue st ≠ EmptyString →
  ∃ st' h' d d', handleAddToDo st h = Ok (st', h') ∧
    displayed localeCompare st h = Some d ∧
    displayed localeCompare st' h' = Some d' ∧
    mkToDo (inputValue st) false ∈ d' ∧
    (sortBy st = None → d' = d ++ [mkToDo (inputValue st) false]).
Proof.
  intros Hl Hs.
  destruct (stores_add _ _ _ Hl Hs) as (st' & h' & Hrun & Hl' & ->).
  eexists _, h', _, _. split; [done|].
  split; [by apply displayed_items|]. split; [by apply displayed_items|].
  assert (shown st (mkToDo (inputValue st) false) = true) as Hshown
    by (unfold shown; simpl; apply orb_true_r).
  cbn [sortBy setInputValue setToDoList]. split.
  - apply list_elem_of_filter. split; [done|].
    case_decide.
    + rewrite stableSort_Permutation. apply elem_of_app. right. by left.
    + apply elem_of_app. right. by left.
  - intros Hnone. rewrite Hnone, !decide_False by done.
    rewrite filter_app. f_equal. by rewrite filter_cons_True.
Qed.
End ViewFacts.

Lemma displayed_is_sort_then_filter_witness :
  displayed codeUnitCompare
    (setSortBy (Some "name"%string) zebraAppleState) zebraAppleHeap =
  Some (filter (λ toDo,
          shown (setSortBy (Some "name"%string) zebraAppleState) toDo = true)
          (if decide (sortBy (setSortBy (Some "name"%string) zebraAppleState)
                      = Some "name"%string)
           then stableSort (byText codeUnitCompare)
                  [mkToDo "Zebra" false; mkToDo "Apple" false]
           else [mkToDo "Zebra" false; mkToDo "Apple" false])).
Proof.
  apply (displayed_is_sort_then_filter codeUnitCompare zebraAppleHeap
           (setSortBy (Some "name"%string) zebraAppleState)
           [mkToDo "Zebra" false; mkToDo "Apple" false]).
  apply stores_zebraApple. reflexivity.
Defined.

Lemma displayed_rows_permutation_witness :
  ∃ ps rows, readPairs milkBobHeap 3%nat = Some ps ∧
    displayedRows codeUnitCompare milkBobState milkBobHeap = Some rows ∧
    rows ≡ₚ filter (λ p, shown milkBobState p.2 = true) ps ∧
    NoDup rows.*1.
Proof.
  apply (displayed_rows_permutation codeUnitCompare milkBobHeap milkBobState
           [mkToDo "Buy milk" true; mkToDo "Call Bob" false]).
  apply stores_milkBob. reflexivity.
Defined.

Lemma render_twice_same_display_witness :
  displayed codeUnitCompare milkBobState
    (mkHeap [mkToDo "Buy milk" true; mkToDo "Call Bob" false]
            [[]; [0]; [0; 1]; [0; 1]; [0; 1]; [1]]%nat)
  = displayed codeUnitCompare milkBobState milkBobHeap.
Proof.
  apply (render_twice_same_display codeUnitCompare milkBobHeap milkBobState
           [mkToDo "Buy milk" true; mkToDo "Call Bob" false] 5%nat).
  - apply stores_milkBob. reflexivity.
  - reflexivity.
Defined.

Lemma toggle_plain_view_witness :
  displayed codeUnitCompare zebraAppleState zebraAppleHeap
    = Some [mkToDo "Zebra" false; mkToDo "Apple" false] ∧
  ∃ st' h', handleToggleCompleted 1 zebraAppleState zebraAppleHeap = Ok (st', h') ∧
    displayed codeUnitCompare st' h'
    = Some (<[Z.to_nat 1:=mkToDo "Apple" true]>
              [mkToDo "Zebra" false; mkToDo "Apple" false]).
Proof.
  apply (toggle_plain_view codeUnitCompare zebraAppleHeap zebraAppleState
           [mkToDo "Zebra" false; mkToDo "Apple" false] 1 (mkToDo "Apple" false)).
  - apply stores_zebraApple. reflexivity.
  - reflexivity.
  - reflexivity.
  - lia.
  - reflexivity.
Defined.

Lemma added_item_is_displayed_witness :
  ∃ st' h' d d',
    handleAddToDo (setInputValue "Dentist" milkBobState) milkBobHeap = Ok (st', h') ∧
    displayed codeUnitCompare (setInputValue "Dentist" milkBobState) milkBobHeap
      = Some d ∧
    displayed codeUnitCompare st' h' = Some d' ∧
    mkToDo "Dentist" false ∈ d' ∧
    (@None string = None → d' = d ++ [mkToDo "Dentist" false]).
Proof.
  apply (added_item_is_displayed codeUnitCompare milkBobHeap
           (setInputValue "Dentist" milkBobState)
           [mkToDo "Buy milk" true; mkToDo "Call Bob" false]).
  - apply stores_milkBob. reflexivity.
  - discriminate.
Defined.

(** * Sharing between successive states *)

Lemma stores_array_bound h st l :
  stores h st l → (toDoList st < length (arrays h))%nat.
Proof.
  intros (ps & [Ha _]%readPairs_Some & _). by eapply lookup_lt_Some.
Qed.

Lemma items_same_array h st st' :
  arrays h !! toDoList st = arrays h !! toDoList st' →
  items h st = items h st'.
Proof. unfold items, readPairs. by intros ->. Qed.

(** X11: the toggle copies the array but writes to the object the old and
    the new array share.  The new state holds a different array, yet the
    array of the previous state, read after the toggle, shows the flipped
    item as well and no longer the list it held. *)
Theorem toggle_mutates_previous_state h st l index t :
  stores h st l → 0 ≤ index → l !! Z.to_nat index = Some t →
  ∃ st' h' l', handleToggleCompleted index st h = Ok (st', h') ∧
    toDoList st' ≠ toDoList st ∧
    items h' st' = Some l' ∧
    items h' st = Some l' ∧
    items h st = Some l ∧ l' ≠ l.
Proof.
  intros Hl Hi Ht.
  pose proof (stores_array_bound _ _ _ Hl) as Hbound.
  pose proof (stores_items _ _ _ Hl) as Hitems.
  destruct (stores_toggle _ _ _ _ _ Hl Ht) as (st' & h' & Hrun & Hl' & ->).
  rewrite Z2Nat.id in Hrun by done.
  destruct Hl as (ps & [Ha _]%readPairs_Some & _ & <-).
  pose proof Hrun as Hshape.
  rewrite (handleToggleCompleted_eq _ _ _ _ Ha) in Hshape.
  destruct (nthZ ps.*1 index) as [o|]; [|done].
  destruct (objects h !! o) as [t0|]; [|done].
  injection Hshape as <-.
  eexists _, _, _. split; [exact Hrun|].
  split; [cbn; lia|]. split; [by apply stores_items|].
  split; [|split; [done|]].
  - rewrite <-(stores_items _ _ _ Hl'). apply items_same_array. cbn.
    rewrite lookup_snoc_new. by apply lookup_app_l_Some.
  - intros Heq. apply (f_equal (λ k, k !! Z.to_nat index)) in Heq.
    rewrite list_lookup_insert_eq, Ht in Heq by (by eapply lookup_lt_Some).
    injection Heq as Heq. apply (f_equal completed) in Heq. simpl in Heq.
    by destruct (completed t).
Qed.

Lemma toggle_mutates_previous_state_witness :
  ∃ st' h' l', handleToggleCompleted 0 zebraAppleState zebraAppleHeap = Ok (st', h') ∧
    toDoList st' ≠ 2%nat ∧
    items h' st' = Some l' ∧
    items h' zebraAppleState = Some l' ∧
    items zebraAppleHeap zebraAppleState
      = Some [mkToDo "Zebra" false; mkToDo "Apple" false] ∧
    l' ≠ [mkToDo "Zebra" false; mkToDo "Apple" false].
Proof.
  apply (toggle_mutates_previous_state zebraAppleHeap zebraAppleState
           [mkToDo "Zebra" false; mkToDo "Apple" false] 0 (mkToDo "Zebra" false)).
  - apply stores_zebraApple. reflexivity.
  - lia.
  - reflexivity.
Defined.

(** X12: adding and deleting build their result in a fresh array and touch
    no existing object: the array of the previous state still reads as the
    list it held, while the new state holds the new list. *)
Theorem add_delete_keep_previous_state h st l e :
  stores h st l →
  (e = PressAdd ∧ inputValue st ≠ EmptyString) ∨ (∃ index, e = PressDelete index) →
  ∃ st' h' l', dispatch e st h = Ok (st', h') ∧
    toDoList st' ≠ toDoList st ∧
    stores h' st' l' ∧
    stores h' st l.
Proof.
  intros Hl He.
  pose proof (stores_array_bound _ _ _ Hl) as Hbound.
  pose proof Hl as (ps & Hps & Hnd & <-).
  pose proof Hps as [Ha Hobjs]%readPairs_Some.
  destruct He as [[-> Hs]|[index ->]]; simpl.
  - destruct (stores_add _ _ _ Hl Hs) as (st' & h' & Hrun & Hl' & ->).
    pose proof Hrun as Hshape.
    rewrite (handleAddToDo_nonempty _ _ _ Hs Ha) in Hshape. injection Hshape as <-.
    eexists _, _, _. split; [exact Hrun|]. split; [cbn; lia|]. split; [done|].
    exists ps. split; [|done]. apply readPairs_mk.
    + by apply lookup_app_l_Some.
    + eapply Forall_impl; [exact Hobjs|]. intros p Hp. by apply lookup_app_l_Some.
  - destruct (stores_delete _ _ _ index Hl) as (st' & h' & Hrun & Hl' & ->).
    pose proof Hrun as Hshape.
    rewrite (handleDeleteToDo_eq _ _ _ _ Ha) in Hshape. injection Hshape as <-.
    eexists _, _, _. split; [exact Hrun|]. split; [cbn; lia|]. split; [done|].
    exists ps. split; [|done]. apply readPairs_mk; [|done].
    by apply lookup_app_l_Some.
Qed.

Lemma add_delete_keep_previous_state_witness :
  ∃ st' h' l', dispatch (PressDelete 0) zebraAppleState zebraAppleHeap = Ok (st', h') ∧
    toDoList st' ≠ 2%nat ∧
    stores h' st' l' ∧
    stores h' zebraAppleState [mkToDo "Zebra" false; mkToDo "Apple" false].
Proof.
  apply (add_delete_keep_previous_state zebraAppleHeap zebraAppleState
           [mkToDo "Zebra" false; mkToDo "Apple" false] (PressDelete 0)).
  - apply stores_zebraApple. reflexivity.
  - right. exists 0. reflexivity.
Defined.

(** * Sessions *)

Section Sessions.
Variable localeCompare : string → string → Z.

(** X13: every state that a sequence of events reaches from the initial
    screen stores a list of pairwise distinct objects, and the render
    succeeds in it, showing no more rows than there are stored items. *)
Theorem reachable_state_renders es st h :
  run es initialState initialHeap = Ok (st, h) →
  ∃ l d, stores h st l ∧
    displayed localeCompare st h = Some d ∧ (length d ≤ length l)%nat.
Proof.
  intros Hrun.
  destruct (run_stores _ _ _ _ _ _ stores_initial Hrun) as [l Hl].
  destruct (displayed_length localeCompare _ _ _ Hl) as (d & Hd & Hlen).
  by exists l, d.
Qed.

(** X14: from the initial screen, a sequence of events each of which the
    screen offers when it occurs runs to its end: no handler throws. *)
Theorem offered_runs_complete es :
  offeredRun localeCompare es initialState initialHeap →
  ∃ st h l, run es initialState initialHeap = Ok (st, h) ∧ stores h st l.
Proof. intros Hes. by eapply run_offered_total; [apply stores_initial|]. Qed.
End Sessions.

Lemma reachable_state_renders_witness :
  ∃ l d, stores milkBobHeap milkBobState l ∧
    displayed codeUnitCompare milkBobState milkBobHeap = Some d ∧
    (length d ≤ length l)%nat.
Proof.
  apply (reachable_state_renders codeUnitCompare milkBobHidden).
  reflexivity.
Defined.

Ltac offered_step :=
  simpl; split;
  [ eexists; split; [reflexivity | simpl; first [done | split; [lia | done]]]
  | let Hd := fresh in intros ? ? Hd; vm_compute in Hd; injection Hd as <- <- ].

Lemma offered_runs_complete_witness :
  ∃ st h l, run milkBobHidden initialState initialHeap = Ok (st, h) ∧ stores h st l.
Proof.
  apply (offered_runs_complete codeUnitCompare milkBobHidden).
  unfold milkBobHidden. do 6 offered_step. exact I.
Defined.

(** ** What a handler leaves alone *)

(** X15: an event changes only the cells of its own handler.
    [showCompleted] changes on the filter button only, [inputValue] only on
    typing and on Add, and [editIndex] only on the long press, the edit field
    and the Update button: adding, toggling and deleting never move or clear
    the edit pointer, even when the rows under it shift. *)
Theorem dispatch_leaves_other_cells e st h st' h' :
  dispatch e st h = Ok (st', h') →
  match e with
  | PressFilter => True
  | _ => showCompleted st' = showCompleted st
  end ∧
  match e with
  | ChangeInput _ | PressAdd => True
  | _ => inputValue st' = inputValue st
  end ∧
  match e with
  | ChangeEdit _ _ | PressUpdate | LongPress _ => True
  | _ => editIndex st' = editIndex st
  end.
Proof.
  destruct e; simpl; intros Hrun;
    try (injection Hrun as <- <-; by auto).
  - unfold handleAddToDo in Hrun. destruct (truthy _).
    + repeat (apply bind_inv in Hrun as (? & ? & _ & Hrun)).
      by injection Hrun as <- <-.
    + by injection Hrun as <- <-.
  - unfold handleEditToDo in Hrun.
    repeat (apply bind_inv in Hrun as (? & ? & _ & Hrun)).
    by injection Hrun as <- <-.
  - unfold handleToggleCompleted in Hrun.
    repeat (apply bind_inv in Hrun as (? & ? & _ & Hrun)).
    by injection Hrun as <- <-.
  - unfold handleDeleteToDo in Hrun.
    repeat (apply bind_inv in Hrun as (? & ? & _ & Hrun)).
    by injection Hrun as <- <-.
Qed.

Lemma dispatch_leaves_other_cells_witness :
  showCompleted (mkState 3%nat EmptyString (Some 1) true None) = true ∧
  inputValue (mkState 3%nat EmptyString (Some 1) true None) = EmptyString ∧
  editIndex (mkState 3%nat EmptyString (Some 1) true None) = Some 1.
Proof.
  apply (dispatch_leaves_other_cells (PressDelete 0)
           (setEditIndex (Some 1) zebraAppleState) zebraAppleHeap
           (mkState 3%nat EmptyString (Some 1) true None)
           (mkHeap [mkToDo "Zebra" false; mkToDo "Apple" false]
                   [[]; [0]; [0; 1]; [1]]%nat)).
  reflexivity.
Defined.

(** ** Adding and deleting *)

(** X16: typing a non-empty text, adding it and deleting the position just
    past the old end gives back the stored list. *)
Theorem add_then_delete_last h st l s :
  stores h st l → s ≠ EmptyString →
  ∃ st' h',
    run [ChangeInput s; PressAdd; PressDelete (Z.of_nat (length l))] st h
      = Ok (st', h') ∧
    stores h' st' l.
Proof.
  intros Hl Hs.
  assert (stores h (setInputValue s st) l) as Hl0 by (by eapply stores_toDoList).
  destruct (stores_add _ _ _ Hl0 Hs) as (st1 & h1 & Hrun1 & Hl1 & _).
  destruct (stores_delete _ _ _ (Z.of_nat (length l)) Hl1)
    as (st2 & h2 & Hrun2 & Hl2 & _).
  exists st2, h2. split.
  - simpl. rewrite (bind_Ok _ _ h (setInputValue s st) h) by done.
    rewrite (bind_Ok _ _ _ _ _ Hrun1). by rewrite (bind_Ok _ _ _ _ _ Hrun2).
  - rewrite spliceList_one in Hl2 by (rewrite length_app; simpl; lia).
    by rewrite (delete_middle l []), app_nil_r in Hl2.
Qed.

Lemma add_then_delete_last_witness :
  ∃ st' h',
    run [ChangeInput "Pear"; PressAdd; PressDelete (Z.of_nat 2)]
      zebraAppleState zebraAppleHeap = Ok (st', h') ∧
    stores h' st' [mkToDo "Zebra" false; mkToDo "Apple" false].
Proof.
  apply (add_then_delete_last zebraAppleHeap zebraAppleState
           [mkToDo "Zebra" false; mkToDo "Apple" false] "Pear").
  - apply stores_zebraApple. reflexivity.
  - discriminate.
Defined.

(** * The index under a view *)

Lemma delete_keeps_others {A} (l : list A) i x y :
  l !! i = Some y → x ∈ l → x ≠ y → x ∈ delete i l.
Proof.
  intros Hi Hx Hxy. rewrite delete_take_drop.
  rewrite <-(take_drop_middle l i y Hi) in Hx.
  apply elem_of_app in Hx as [Hx|Hx]; apply elem_of_app; [by left|].
  apply elem_of_cons in Hx as [->|Hx]; [done | by right].
Qed.

Lemma delete_drops_distinct {A} (l : list A) i y :
  NoDup l → l !! i = Some y → y ∉ delete i l.
Proof.
  intros Hnd Hi. rewrite delete_take_drop.
  rewrite <-(take_drop_middle l i y Hi) in Hnd.
  apply NoDup_app in Hnd as (_ & Hleft & [Hright _]%NoDup_cons).
  intros [Hy|Hy]%elem_of_app; [|done].
  apply (Hleft _ Hy). by left.
Qed.

Section IndexUnderView.
Variable localeCompare : string → string → Z.

Lemma displayedRows_objects h st ps rows :
  readPairs h (toDoList st) = Some ps →
  displayedRows localeCompare st h = Some rows →
  ∀ p, p ∈ rows → p ∈ ps.
Proof.
  intros Hps Hrows p Hp. rewrite (displayedRows_eq _ _ _ _ Hps) in Hrows.
  injection Hrows as <-. unfold filteredPairs in Hp.
  apply list_elem_of_filter in Hp as [_ Hp].
  by rewrite sortedPairs_Permutation in Hp.
Qed.

(** X17: the check box of displayed row [index] acts on the object at
    position [index] of storage.  That object has its flag flipped; the
    object the row shows, when it is another one, is left as it was. *)
Theorem toggle_acts_on_storage_object h st ps rows index o' t' o t :
  readPairs h (toDoList st) = Some ps →
  displayedRows localeCompare st h = Some rows →
  0 ≤ index →
  ps !! Z.to_nat index = Some (o', t') →
  rows !! Z.to_nat index = Some (o, t) →
  ∃ st' h', handleToggleCompleted index st h = Ok (st', h') ∧
    objects h' !! o' = Some (mkToDo (text t') (negb (completed t'))) ∧
    (o ≠ o' → objects h' !! o = Some t).
Proof.
  intros Hps Hrows Hi Hstored Hrow.
  assert ((o, t) ∈ ps) as Hin.
  { eapply displayedRows_objects; [done..|]. by eapply list_elem_of_lookup_2. }
  apply readPairs_Some in Hps as [Ha Hobjs].
  rewrite Forall_forall in Hobjs.
  pose proof (Hobjs _ Hin) as Ho. simpl in Ho.
  assert (objects h !! o' = Some t') as Ho'.
  { apply (Hobjs (o', t')). by eapply list_elem_of_lookup_2. }
  eexists _, _. split; [|split].
  - rewrite (handleToggleCompleted_eq _ _ _ _ Ha).
    unfold nthZ. rewrite decide_True by done.
    by rewrite list_lookup_fmap, Hstored; simpl; rewrite Ho'.
  - cbn. apply list_lookup_insert_eq. by eapply lookup_lt_Some.
  - intros Hne. cbn. by rewrite list_lookup_insert_ne.
Qed.

(** X18: the delete button of displayed row [index] removes the object at
    position [index] of storage.  That object is gone from the new list;
    the object the row shows, when it is another one, is still in it. *)
Theorem delete_acts_on_storage_object h st l ps rows index o' t' o t :
  stores h st l →
  readPairs h (toDoList st) = Some ps →
  displayedRows localeCompare st h = Some rows →
  0 ≤ index →
  ps !! Z.to_nat index = Some (o', t') →
  rows !! Z.to_nat index = Some (o, t) →
  ∃ st' h' ps', handleDeleteToDo index st h = Ok (st', h') ∧
    readPairs h' (toDoList st') = Some ps' ∧
    (o' ∉ ps'.*1) ∧
    (o ≠ o' → (o, t) ∈ ps').
Proof.
  intros (ps0 & Hps0 & Hnd & _) Hps Hrows Hi Hstored Hrow.
  assert (ps0 = ps) as -> by congruence.
  assert ((o, t) ∈ ps) as Hin.
  { eapply displayedRows_objects; [done..|]. by eapply list_elem_of_lookup_2. }
  pose proof Hps as [Ha Hobjs]%readPairs_Some.
  assert (Z.to_nat index < length ps)%nat as Hlt by (by eapply lookup_lt_Some).
  exists (setToDoList (length (arrays h)) st),
    (mkHeap (objects h) (arrays h ++ [spliceList ps.*1 index 1])),
    (delete (Z.to_nat index) ps).
  split; [by apply handleDeleteToDo_eq|].
  assert (spliceList ps.*1 index 1 = (delete (Z.to_nat index) ps).*1) as Hsplice.
  { rewrite <-(Z2Nat.id index) at 1 by done.
    rewrite <-spliceList_fmap. f_equal. by apply spliceList_one. }
  split; [|split].
  - apply readPairs_mk.
    + cbn [toDoList setToDoList]. by rewrite lookup_snoc_new, Hsplice.
    + apply Forall_forall. intros p Hp%list_elem_of_delete_inv.
      revert p Hp. by apply Forall_forall.
  - rewrite list_fmap_delete. apply delete_drops_distinct; [done|].
    by rewrite list_lookup_fmap, Hstored.
  - intros Hne. eapply delete_keeps_others; [done..|]. congruence.
Qed.
End IndexUnderView.

Lemma toggle_acts_on_storage_object_witness :
  ∃ st' h',
    handleToggleCompleted 0 (setSortBy (Some "name"%string) zebraAppleState)
      zebraAppleHeap = Ok (st', h') ∧
    objects h' !! 0%nat = Some (mkToDo "Zebra" true) ∧
    (1%nat ≠ 0%nat → objects h' !! 1%nat = Some (mkToDo "Apple" false)).
Proof.
  apply (toggle_acts_on_storage_object codeUnitCompare zebraAppleHeap
           (setSortBy (Some "name"%string) zebraAppleState)
           [(0%nat, mkToDo "Zebra" false); (1%nat, mkToDo "Apple" false)]
           [(1%nat, mkToDo "Apple" false); (0%nat, mkToDo "Zebra" false)]
           0 0%nat (mkToDo "Zebra" false) 1%nat (mkToDo "Apple" false)).
  - reflexivity.
  - reflexivity.
  - lia.
  - reflexivity.
  - reflexivity.
Defined.

Lemma delete_acts_on_storage_object_witness :
  ∃ st' h' ps',
    handleDeleteToDo 0 (setSortBy (Some "name"%string) zebraAppleState)
      zebraAppleHeap = Ok (st', h') ∧
    readPairs h' (toDoList st') = Some ps' ∧
    (0%nat ∉ ps'.*1) ∧
    (1%nat ≠ 0%nat → (1%nat, mkToDo "Apple" false) ∈ ps').
Proof.
  apply (delete_acts_on_storage_object codeUnitCompare zebraAppleHeap
           (setSortBy (Some "name"%string) zebraAppleState)
           [mkToDo "Zebra" false; mkToDo "Apple" false]
           [(0%nat, mkToDo "Zebra" false); (1%nat, mkToDo "Apple" false)]
           [(1%nat, mkToDo "Apple" false); (0%nat, mkToDo "Zebra" false)]
           0 0%nat (mkToDo "Zebra" false) 1%nat (mkToDo "Apple" false)).
  - apply stores_zebraApple. reflexivity.
  - reflexivity.
  - reflexivity.
  - lia.
  - reflexivity.
  - reflexivity.
Defined.
